(** * Smart collections: the data model of [products/models/collection.py]

    A shallow embedding of the collection data model (choice tables,
    [CustomCollection], [Collect], [CollectionRule]) together with the
    properties the specification states about it.  Python values are
    modelled as follows: [str] as [string], [int] as [Z] (positions as [N]),
    a [dict] as a [gmap], a list as [list] with stdpp's lookup, a raised
    [KeyError] as [None]. *)

From Stdlib Require Import ZArith NArith Lia Ascii String List.
From Stdlib Require Import Sorting.Sorted Sorting.Permutation.
From stdpp Require Import base gmap strings list sorting.

Local Open Scope string_scope.

(** ** Choice tables *)

(** A choice table is a tuple of (stored value, display label) pairs.  The
    labels go through the translation function [_]; only their source text
    is kept here. *)
Definition choices := list (string * string).

Definition COLUMN_CHOICES : choices :=
  [ ("title", "Product title");
    ("type", "Product type");
    ("vendor", "Product vendor");
    ("variant_price", "Product price");
    ("tag", "Product tag");
    ("variant_compare_at_price", "Compare at price");
    ("variant_weight", "Weight");
    ("variat_inventory", "Inventory stock");
    ("variant_title", "Variant's title") ].

Definition RELATION_CHOICES : choices :=
  [ ("equals", "is equal to");
    ("not_equals", "is not equal to");
    ("greater_than", "is greater than");
    ("less_than", "is less than");
    ("starts_with", "starts with");
    ("ends_with", "ends with");
    ("contains", "contains");
    ("not_contains", "does not contain") ].

Definition SORT_CHOICES : choices :=
  [ ("manual", "Manually");
    ("best-selling", "By best selling");
    ("alpha-asc", "Alphabetically: A-Z");
    ("alpha-desc", "Alphabetically: Z-A");
    ("price-desc", "By price: Highest to lowest");
    ("price-asc", "By price: Lowest to highest");
    ("created-descending", "By date: Newest to oldest");
    ("created", "By date: Oldest to newest") ].

Definition PUBLICATION_CHOICES : choices :=
  [ ("global", "Online store") ].

(** The stored values a field declared with [choices=cs] permits: the first
    components of the pairs. *)
Definition choice_values (cs : choices) : list string := map fst cs.

(** Validation of a value against a choice table. *)
Definition valid_choice (cs : choices) (v : string) : bool :=
  existsb (String.eqb v) (choice_values cs).

(** ** CustomCollection.default_sort_by *)

(** The dictionary literal of [default_sort_by]. *)
Definition default_sort_by_mapping : gmap string string :=
  <["alpha-asc" := "title-descending"]>
  (<["alpha-desc" := "title-asc"]>
  (<["best-selling" := "best-selling"]>
  (<["created" := "created-ascending"]>
  (<["created-desc" := "created-descending"]>
  (<["manual" := "manual"]>
  (<["price-asc" := "price-ascending"]>
  (<["price-desc" := "price-descending"]> ∅))))))).

(** [mapping[self.sort_order]]: [None] stands for the [KeyError] a missing key
    raises. *)
Definition default_sort_by (sort_order : string) : option string :=
  default_sort_by_mapping !! sort_order.

(** ** Python's [format(n, '010')] on integers *)

Definition digit_char (d : N) : ascii := ascii_of_N (48 + d).

(** Decimal digits of a natural number, most significant first, without
    leading zeros ([str(n)] for [n >= 0]).  The recursion is on a fuel that
    bounds the number of digits. *)
Fixpoint decimal_fuel (fuel : nat) (n : N) : string :=
  match fuel with
  | O => ""
  | S f =>
      if (n <? 10)%N then String (digit_char n) ""
      else decimal_fuel f (n / 10) ++ String (digit_char (n mod 10)) ""
  end.

Definition decimal (n : N) : string := decimal_fuel (S (N.to_nat (N.size n))) n.

Fixpoint zeros (k : nat) : string :=
  match k with
  | O => ""
  | S k' => String "0"%char (zeros k')
  end.

(** [format(z, '0<width>')]: the fill character is [0] and the padding goes
    between the sign and the digits; [width] is a minimum, longer numbers are
    not truncated. *)
Definition format_int (width : nat) (z : Z) : string :=
  let sign := if (z <? 0)%Z then "-" else "" in
  let digits := decimal (Z.abs_N z) in
  sign ++ zeros (width - String.length sign - String.length digits) ++ digits.

(** The rendering the specification describes: exactly [w] decimal digits,
    the digit of weight [10^(w-1)] first. *)
Fixpoint fixed_width_decimal (w : nat) (n : N) : string :=
  match w with
  | O => ""
  | S w' =>
      String (digit_char ((n / 10 ^ N.of_nat w') mod 10)) (fixed_width_decimal w' n)
  end.

(** Left padding with zeros up to a width, and the number a string of
    decimal digits denotes. *)
Definition zero_padded (width : nat) (s : string) : string :=
  zeros (width - String.length s) ++ s.

Fixpoint decimal_value_acc (acc : N) (s : string) : N :=
  match s with
  | EmptyString => acc
  | String c s' => decimal_value_acc (10 * acc + (N_of_ascii c - 48)) s'
  end.

Definition decimal_value (s : string) : N := decimal_value_acc 0 s.

(** ** Records of the data model *)

(** Modelled from the spec: [PositionField] is declared in [utils.fields],
    which is not part of the source at hand; the specification describes a
    position as an integer of a dense sequence starting at 0, so a position is
    a natural number. *)
Definition PositionField := N.

(** The attributes of a product (an external model) that the collection
    model reads. *)
Record Product := {
  product_pk : Z;
  handle : string;
  product_type : string;
  vendor : string;
  tags : gset string
}.

Record CustomCollection := {
  collection_pk : Z;
  disjunctive : bool;
  published : bool;
  sort_order : string;
  title : string
}.

Record Collect := {
  collect_collection : Z;
  featured : bool;
  collect_position : PositionField;
  collect_product : Z;
  sort_value : string
}.

Record CollectionRule := {
  rule_collection : Z;
  column : string;
  condition : string;
  rule_position : PositionField;
  relation : string
}.

(** [Collect.save]: the stored record has [sort_value] recomputed from
    [position]. *)
Definition Collect_save (self : Collect) : Collect :=
  {| collect_collection := collect_collection self;
     featured := featured self;
     collect_position := collect_position self;
     collect_product := collect_product self;
     sort_value := format_int 10 (Z.of_N (collect_position self)) |}.

(** ** Default orderings ([Meta.ordering]) *)

(** Lexicographic combination of the comparisons of successive fields. *)
Definition lex (c1 c2 : comparison) : comparison :=
  match c1 with
  | Eq => c2
  | _ => c1
  end.

(** [a] may come before [b] in a sequence ordered by [cmp]. *)
Definition ordered_by {A} (cmp : A → A → comparison) : A → A → Prop :=
  λ a b, cmp a b ≠ Gt.

Global Instance comparison_eq_dec : EqDecision comparison.
Proof. solve_decision. Defined.

Global Instance ordered_by_dec {A} (cmp : A → A → comparison) :
  RelDecision (ordered_by cmp).
Proof. intros a b. unfold ordered_by. apply _. Defined.

(** The rows of a query come back sorted by the model's [ordering]. *)
Definition order_by {A} (cmp : A → A → comparison) (rows : list A) : list A :=
  merge_sort (ordered_by cmp) rows.

(** The laws of a three-way comparison that ranks its arguments: swapping
    the arguments swaps the verdict, arguments that compare equal compare
    alike with any third, and [Lt] chains with [Lt] and [Eq]. *)
Definition lawful {A} (cmp : A → A → comparison) : Prop :=
  (∀ a b, cmp b a = CompOpp (cmp a b)) ∧
  (∀ a b c, cmp a b = Eq → cmp b c = cmp a c) ∧
  (∀ a b c, cmp a b = Lt → cmp b c ≠ Gt → cmp a c = Lt).

(** [CustomCollection.Meta.ordering = ('-title_t',)]: by title,
    descending. *)
Definition CustomCollection_ordering (a b : CustomCollection) : comparison :=
  String.compare (title b) (title a).

(** [CollectionRule.Meta.ordering = ('position',)]. *)
Definition CollectionRule_ordering (a b : CollectionRule) : comparison :=
  N.compare (rule_position a) (rule_position b).

Section CollectOrdering.
(** Ordering by a foreign key follows the default ordering of the model the
    key refers to.  The model [Product] is not part of the source at hand:
    the place of a product in the default ordering of [Product] is the
    parameter [product_rank] (the key itself when [Product] declares no
    ordering; products that tie have one rank).  [collection_row] is the
    collection a key refers to. *)
Variable product_rank : Z → Z.
Variable collection_row : Z → CustomCollection.

(** [Collect.Meta.ordering = ('product', 'collection', 'position')]. *)
Definition Collect_ordering (a b : Collect) : comparison :=
  lex (Z.compare (product_rank (collect_product a))
                 (product_rank (collect_product b)))
      (lex (CustomCollection_ordering (collection_row (collect_collection a))
                                      (collection_row (collect_collection b)))
           (N.compare (collect_position a) (collect_position b))).

(** The membership records of the collection with key [c], enumerated from
    the table of stored records in the default ordering. *)
Definition collect_set (c : Z) (table : list Collect) : list Collect :=
  order_by Collect_ordering (filter (λ r, collect_collection r = c) table).
End CollectOrdering.

(** The rules of the collection with key [c], in the default ordering. *)
Definition collectionrule_set (c : Z) (table : list CollectionRule) :
    list CollectionRule :=
  order_by CollectionRule_ordering (filter (λ r, rule_collection r = c) table).

(** A stored record went through [Collect.save]. *)
Definition saved (r : Collect) : Prop := Collect_save r = r.

(** ** [CollectionRule.Meta.unique_together] *)

Definition unique_key (r : CollectionRule) : Z * string * string * string :=
  (rule_collection r, column r, condition r, relation r).

(** Some stored rule already carries the key of [r]. *)
Definition violates_unique_together (table : list CollectionRule)
    (r : CollectionRule) : bool :=
  existsb (λ r', bool_decide (unique_key r' = unique_key r)) table.

(** Creating a rule: [None] is the rejection (integrity error) of a rule
    whose key is taken; otherwise the rule is appended to the table. *)
Definition CollectionRule_create (table : list CollectionRule)
    (r : CollectionRule) : option (list CollectionRule) :=
  if violates_unique_together table r then None else Some (table ++ [r])%list.

(** Deleting the [i]-th stored rule. *)
Definition CollectionRule_delete (table : list CollectionRule) (i : nat) :
    list CollectionRule :=
  delete i table.

(** The tables that creations and deletions build from the empty table. *)
Inductive rule_table : list CollectionRule → Prop :=
  | rule_table_empty : rule_table []
  | rule_table_create table r table' :
      rule_table table →
      CollectionRule_create table r = Some table' →
      rule_table table'
  | rule_table_delete table i :
      rule_table table →
      rule_table (CollectionRule_delete table i).

(** ** Rule set evaluation *)

Section RuleSetEvaluator.
(** The predicate evaluator: the verdict of one rule on one product. *)
Variable evaluate : Product → CollectionRule → bool.

(** Conjunction, stopping at the first rule that fails. *)
Fixpoint all_rules (P : Product) (rules : list CollectionRule) : bool :=
  match rules with
  | [] => true
  | r :: rest => if evaluate P r then all_rules P rest else false
  end.

(** Disjunction, stopping at the first rule that holds. *)
Fixpoint any_rule (P : Product) (rules : list CollectionRule) : bool :=
  match rules with
  | [] => false
  | r :: rest => if evaluate P r then true else any_rule P rest
  end.

(** Modelled from the spec: the rule set evaluator [matches(product,
    collection)] is not part of the source at hand.  Zero rules never
    match; otherwise the rules are combined by conjunction when
    [disjunctive] is false and by disjunction when it is true. *)
Definition matches (P : Product) (C : CustomCollection)
    (rules : list CollectionRule) : bool :=
  match rules with
  | [] => false
  | _ :: _ => if disjunctive C then any_rule P rules else all_rules P rules
  end.

(** Membership of [P] in [C], with the rules of [C] read from the table. *)
Definition is_member (P : Product) (C : CustomCollection)
    (table : list CollectionRule) : bool :=
  matches P C (collectionrule_set (collection_pk C) table).
End RuleSetEvaluator.

(** ** [CustomCollection.all_tags] *)

(** One iteration of the loop: the union is computed and dropped, the
    variable [tags] keeps its value. *)
Definition all_tags_step (tags0 : gset string) (p : Product) : gset string :=
  let _unused := tags0 ∪ tags p in
  tags0.

Definition string_le : string → string → Prop := λ a b, String.leb a b = true.

Global Instance string_le_dec : RelDecision string_le.
Proof. intros a b. unfold string_le. apply _. Defined.

(** [sorted(s)] on a set of strings. *)
Definition sorted (s : gset string) : list string :=
  merge_sort string_le (elements s).

Definition all_tags (products : list Product) : list string :=
  sorted (foldl all_tags_step ∅ products).

(** ** [CustomCollection.adjecant_products] *)

Record request := { path : string }.

(** [s.split(sep)] for a one-character separator. *)
Fixpoint split (sep : ascii) (s : string) : list string :=
  match s with
  | EmptyString => [""]
  | String c s' =>
      if Ascii.eqb c sep then "" :: split sep s'
      else match split sep s' with
           | [] => [String c ""]
           | w :: ws => String c w :: ws
           end
  end.

(** [l[i]] with Python's negative indices; [None] is the [IndexError]. *)
Definition getitem {A} (l : list A) (i : Z) : option A :=
  if (0 <=? i)%Z then l !! Z.to_nat i
  else if (- Z.of_nat (length l) <=? i)%Z then l !! Z.to_nat (Z.of_nat (length l) + i)
  else None.

(** [enumerate(l)], counting from [j]. *)
Fixpoint enumerate_from {A} (j : Z) (l : list A) : list (Z * A) :=
  match l with
  | [] => []
  | x :: l' => (j, x) :: enumerate_from (j + 1) l'
  end.

Definition enumerate {A} (l : list A) : list (Z * A) := enumerate_from 0 l.

(** The values the dictionary [res] holds: the boolean [False], [None] or a
    product. *)
Inductive value :=
  | VFalse
  | VNone
  | VProduct (p : Product).

(** The body of the loop on one pair [(j, p)], threading [res]. *)
Definition adjecant_step (products : list Product) (handle0 : string)
    (res : gmap string value) (jp : Z * Product) : option (gmap string value) :=
  let '(j, p) := jp in
  if String.eqb (handle p) handle0 then
    res1 ← (if (j + 1 <? Z.of_nat (length products))%Z
            then q ← getitem products (j + 1); Some (<["next" := VProduct q]> res)
            else Some res);
    if (j - 1 >=? 0)%Z
    then q ← getitem products (j - 1); Some (<["previous" := VProduct q]> res1)
    else Some res1
  else Some res.

Fixpoint adjecant_loop (products : list Product) (handle0 : string)
    (res : gmap string value) (jps : list (Z * Product)) :
    option (gmap string value) :=
  match jps with
  | [] => Some res
  | jp :: rest =>
      res' ← adjecant_step products handle0 res jp;
      adjecant_loop products handle0 res' rest
  end.

Definition adjecant_products (req : request) (products : list Product) :
    option (gmap string value) :=
  handle0 ← getitem (split "/" (path req)) (-1);
  let res := <["next" := VFalse]> (<["previous" := VFalse]> ∅) in
  adjecant_loop products handle0 res (enumerate products).

Definition next_product (req : request) (products : list Product) : option value :=
  res ← adjecant_products req products; res !! "next".

Definition previous_product (req : request) (products : list Product) : option value :=
  res ← adjecant_products req products; res !! "previous".

(** ** The sort modes the specification names *)

Inductive direction := Ascending | Descending.

Inductive sort_mode :=
  | Manual
  | BestSelling
  | Alphabetical (d : direction)
  | Price (d : direction)
  | Created (d : direction).

(** The stored value of each mode, read off the labels of [SORT_CHOICES]
    (A-Z, lowest to highest and oldest to newest are the ascending ones). *)
Definition sort_mode_value (m : sort_mode) : string :=
  match m with
  | Manual => "manual"
  | BestSelling => "best-selling"
  | Alphabetical Ascending => "alpha-asc"
  | Alphabetical Descending => "alpha-desc"
  | Price Ascending => "price-asc"
  | Price Descending => "price-desc"
  | Created Ascending => "created"
  | Created Descending => "created-descending"
  end.

(** ** Example data *)

(** Two members of collection 1: product 1 at position 1 and product 2 at
    position 0. *)
Definition collect_a : Collect :=
  Collect_save {| collect_collection := 1%Z; featured := false;
                  collect_position := 1%N; collect_product := 1%Z;
                  sort_value := "" |}.

Definition collect_b : Collect :=
  Collect_save {| collect_collection := 1%Z; featured := false;
                  collect_position := 0%N; collect_product := 2%Z;
                  sort_value := "" |}.

(** Three products of a collection and the request of the page of the
    second one. *)
Definition product_of (pk : Z) (h : string) : Product :=
  {| product_pk := pk; handle := h; product_type := "print";
     vendor := "Acme"; tags := ∅ |}.

Definition sample_products : list Product :=
  [ product_of 1%Z "wellington"; product_of 2%Z "auckland";
    product_of 3%Z "taupo" ].

Definition sample_request : request :=
  {| path := "/collections/contemporary-cityscapes/products/auckland" |}.

(** A conjunctive collection with one rule. *)
Definition sample_collection : CustomCollection :=
  {| collection_pk := 1%Z; disjunctive := false; published := true;
     sort_order := "manual"; title := "Cityscapes" |}.

Definition sample_rule : CollectionRule :=
  {| rule_collection := 1%Z; column := "vendor"; condition := "Acme";
     rule_position := 0%N; relation := "equals" |}.

(** A stand-in predicate evaluator: exact equality on the vendor column. *)
Definition vendor_equals (P : Product) (r : CollectionRule) : bool :=
  String.eqb (column r) "vendor" && String.eqb (relation r) "equals" &&
  String.eqb (vendor P) (condition r).

(** Two products sharing a handle, around a third one. *)
Definition twin_products : list Product :=
  [ product_of 1%Z "auckland"; product_of 2%Z "taupo";
    product_of 3%Z "auckland" ].

(** ** Further properties of [CustomCollection] *)

(** [filter(None, s)] on a set of strings keeps the non-empty ones, the
    empty string being the falsy one. *)
Definition filter_truthy (s : gset string) : gset string :=
  filter (λ x, x ≠ "") s.

(** [all_types]: the distinct non-empty product types, sorted. *)
Definition all_types (products : list Product) : list string :=
  sorted (filter_truthy (list_to_set (product_type <$> products))).

(** [all_vendors]: the distinct non-empty vendors, sorted. *)
Definition all_vendors (products : list Product) : list string :=
  sorted (filter_truthy (list_to_set (vendor <$> products))).

Definition all_products_count (products : list Product) : nat :=
  length products.

(** [s.endswith(suffix)]: the last [len(suffix)] characters of [s] are
    [suffix]. *)
Definition endswith (s suffix : string) : bool :=
  let n := String.length s in
  let m := String.length suffix in
  (m <=? n)%nat && String.eqb (substring (n - m) m s) suffix.

(** [current_type] and [current_vendor] read the path of the request and
    its query dictionary [GET]; [None] is Python's [None], which
    [GET.get('q')] yields for a missing key and which a function returns
    when it falls off its end. *)
Definition current_type (req : request) (GET : gmap string string) :
    option string :=
  if endswith (path req) "/types" then GET !! "q" else None.

Definition current_vendor (req : request) (GET : gmap string string) :
    option string :=
  if endswith (path req) "/vendors" then GET !! "q" else None.

(** [get_absolute_url], on the handle of the collection. *)
Definition get_absolute_url (handle0 : string) : string :=
  "/collection/" ++ handle0.

Definition url (handle0 : string) : string := get_absolute_url handle0.

(** The character [c] occurs in [s]. *)
Fixpoint occurs (c : ascii) (s : string) : bool :=
  match s with
  | EmptyString => false
  | String c' s' => Ascii.eqb c' c || occurs c s'
  end.

(** What [res['next']] holds once the loop of [adjecant_products] has gone
    through the first [k] products: [False] while no product with the
    handle had a successor, else the successor of the last such product. *)
Definition next_upto (products : list Product) (h : string) (k : nat)
    (v : option value) : Prop :=
  match v with
  | Some VFalse =>
      ∀ j p, j < k → products !! j = Some p → handle p = h →
             S j = length products
  | Some (VProduct q) =>
      ∃ j p, j < k ∧ products !! j = Some p ∧ handle p = h ∧
             products !! S j = Some q ∧
             ∀ i p', j < i → i < k → products !! i = Some p' → handle p' = h →
                     S i = length products
  | _ => False
  end.

(** What [res['previous']] holds at that point: [False] while the handle
    was seen at index 0 only, else the predecessor of the last product with
    the handle. *)
Definition previous_upto (products : list Product) (h : string) (k : nat)
    (v : option value) : Prop :=
  match v with
  | Some VFalse =>
      ∀ j p, j < k → products !! j = Some p → handle p = h → j = 0
  | Some (VProduct q) =>
      ∃ j p, S j < k ∧ products !! S j = Some p ∧ handle p = h ∧
             products !! j = Some q ∧
             ∀ i p', S j < i → i < k → products !! i = Some p' →
                     handle p' ≠ h
  | _ => False
  end.

(** The ranks of products ordered by key, and a table of collections that
    holds [sample_collection] under every key. *)
Definition by_key (pk : Z) : Z := pk.

Definition sample_row (pk : Z) : CustomCollection := sample_collection.

(** A member at position [10^10] and one at the last ten-digit position. *)
Definition collect_big : Collect :=
  Collect_save {| collect_collection := 1%Z; featured := false;
                  collect_position := 10000000000%N; collect_product := 3%Z;
                  sort_value := "" |}.

Definition collect_nines : Collect :=
  Collect_save {| collect_collection := 1%Z; featured := false;
                  collect_position := 9999999999%N; collect_product := 4%Z;
                  sort_value := "" |}.

(** * Properties *)

(** ** Choice tables *)

Lemma valid_choice_In cs v : valid_choice cs v = true <-> In v (choice_values cs).
Proof.
  unfold valid_choice. rewrite existsb_exists. split.
  - intros (x & Hx & Heq). apply String.eqb_eq in Heq. by subst.
  - intros H. exists v. split; [done | apply String.eqb_refl].
Qed.

(** Membership in a literal table, unfolded into a disjunction of
    equations. *)
Ltac choice_cases H :=
  apply valid_choice_In in H; simpl in H;
  repeat (destruct H as [H | H]; [symmetry in H | ]); [.. | contradiction].

(** The columns the code permits, as the table spells them. *)
Lemma column_choices_values :
  choice_values COLUMN_CHOICES =
  ["title"; "type"; "vendor"; "variant_price"; "tag";
   "variant_compare_at_price"; "variant_weight"; "variat_inventory";
   "variant_title"].
Proof. reflexivity. Qed.

(** C5: the column table spells the inventory column [variat_inventory], so
    the value [variant_inventory] the specification lists is not permitted,
    while the misspelt one is. *)
Theorem column_choices_inventory_misspelt :
  valid_choice COLUMN_CHOICES "variant_inventory" = false ∧
  valid_choice COLUMN_CHOICES "variat_inventory" = true.
Proof. split; reflexivity. Qed.

Lemma sort_mode_value_inj m1 m2 :
  sort_mode_value m1 = sort_mode_value m2 → m1 = m2.
Proof.
  destruct m1 as [| |[]|[]|[]], m2 as [| |[]|[]|[]]; simpl;
    intros H; try reflexivity; discriminate H.
Qed.

(** C7: the permitted values of [sort_order] are exactly the stored values of
    the eight sort modes (manual, best-selling, alphabetical, price and
    created, the last three ascending and descending), which are pairwise
    distinct. *)
Theorem sort_choices_exact :
  (∀ v, valid_choice SORT_CHOICES v = true ↔ ∃ m, v = sort_mode_value m) ∧
  (∀ m1 m2, sort_mode_value m1 = sort_mode_value m2 → m1 = m2) ∧
  length SORT_CHOICES = 8.
Proof.
  split; [| split; [apply sort_mode_value_inj | reflexivity]].
  intros v. split.
  - intros H. choice_cases H; subst v.
    + by exists Manual.
    + by exists BestSelling.
    + by exists (Alphabetical Ascending).
    + by exists (Alphabetical Descending).
    + by exists (Price Descending).
    + by exists (Price Ascending).
    + by exists (Created Descending).
    + by exists (Created Ascending).
  - intros [m ->]. by destruct m as [| |[]|[]|[]].
Qed.

(** ** default_sort_by *)

(** Every permitted [sort_order] but [created-descending] is a key of the
    mapping. *)
Lemma default_sort_by_other v :
  valid_choice SORT_CHOICES v = true → v ≠ "created-descending" →
  is_Some (default_sort_by v).
Proof.
  intros H Hne. choice_cases H; subst v;
    try (eexists; reflexivity); by destruct Hne.
Qed.

(** C8: [created-descending] is a permitted [sort_order], yet it is no key of
    the mapping of [default_sort_by] (which spells it [created-desc]), so
    the lookup raises. *)
Theorem default_sort_by_created_descending :
  valid_choice SORT_CHOICES "created-descending" = true ∧
  default_sort_by "created-descending" = None ∧
  default_sort_by "created-desc" = Some "created-descending".
Proof. repeat split; reflexivity. Qed.

(** ** all_tags *)

Lemma all_tags_loop products tags0 : foldl all_tags_step tags0 products = tags0.
Proof.
  revert tags0. induction products as [| p products IH]; intros tags0; simpl.
  - reflexivity.
  - rewrite IH. reflexivity.
Qed.

(** C9: [all_tags] is the empty list whatever tags the products carry. *)
Theorem all_tags_empty (products : list Product) : all_tags products = [].
Proof.
  unfold all_tags. rewrite all_tags_loop. unfold sorted.
  rewrite elements_empty. reflexivity.
Qed.

(** A collection whose products do carry tags. *)
Example all_tags_tagged :
  all_tags [ {| product_pk := 1%Z; handle := "auckland"; product_type := "print";
                vendor := "Acme"; tags := {["sale"]} ∪ {["city"]} |} ] = [].
Proof. vm_compute. reflexivity. Qed.

(** ** Default orderings *)

Section Ordering.
Context {A : Type} (cmp : A → A → comparison).
Hypothesis cmp_total : ∀ a b, cmp a b = Gt → cmp b a ≠ Gt.
Hypothesis cmp_trans :
  ∀ a b c, cmp a b ≠ Gt → cmp b c ≠ Gt → cmp a c ≠ Gt.

Lemma ordered_by_total : Total (ordered_by cmp).
Proof using cmp_total.
  intros a b. unfold ordered_by.
  destruct (cmp a b) eqn:E; [left; congruence | left; congruence |].
  right. by apply cmp_total.
Qed.

Lemma ordered_by_trans : Transitive (ordered_by cmp).
Proof using cmp_trans. intros a b c. apply cmp_trans. Qed.

Lemma order_by_sorted rows : StronglySorted (ordered_by cmp) (order_by cmp rows).
Proof using cmp_total cmp_trans.
  unfold order_by.
  apply (@StronglySorted_merge_sort _ _ _ ordered_by_trans ordered_by_total).
Qed.

Lemma order_by_perm rows : order_by cmp rows ≡ₚ rows.
Proof using Type. apply merge_sort_Permutation. Qed.
End Ordering.

Lemma StronglySorted_lookup_lt {A} (R : A → A → Prop) l i j a b :
  StronglySorted R l → i < j → l !! i = Some a → l !! j = Some b → R a b.
Proof.
  intros Hs. revert i j. induction Hs as [| x l Hs IH Hall]; intros i j Hij Hi Hj.
  - rewrite lookup_nil in Hi. discriminate.
  - destruct j as [| j]; [lia |]. simpl in Hj.
    destruct i as [| i]; simpl in Hi.
    + injection Hi as <-. rewrite Forall_forall in Hall.
      apply Hall. eapply list_elem_of_lookup_2. exact Hj.
    + apply (IH i j); [lia | done | done].
Qed.

Lemma StronglySorted_weaken {A} (R R' : A → A → Prop) l :
  (∀ a b, R a b → R' a b) → StronglySorted R l → StronglySorted R' l.
Proof.
  intros HR Hs. induction Hs as [| x l Hs IH Hall]; constructor; [done |].
  eapply Forall_impl; [exact Hall | apply HR].
Qed.

Lemma lex_not_Gt c1 c2 : lex c1 c2 ≠ Gt ↔ c1 = Lt ∨ (c1 = Eq ∧ c2 ≠ Gt).
Proof.
  destruct c1; simpl; split.
  - intros H. right. by split.
  - by intros [H | [_ H]].
  - intros _. by left.
  - done.
  - done.
  - by intros [H | [H _]].
Qed.

Lemma CollectionRule_ordering_spec a b :
  ordered_by CollectionRule_ordering a b ↔ (rule_position a ≤ rule_position b)%N.
Proof. unfold ordered_by, CollectionRule_ordering, PositionField. apply N.compare_le_iff. Qed.

Lemma CollectionRule_ordering_total a b :
  CollectionRule_ordering a b = Gt → CollectionRule_ordering b a ≠ Gt.
Proof.
  unfold CollectionRule_ordering, PositionField. rewrite N.compare_gt_iff.
  intros H. apply N.compare_le_iff. lia.
Qed.

Lemma CollectionRule_ordering_trans a b c :
  CollectionRule_ordering a b ≠ Gt → CollectionRule_ordering b c ≠ Gt →
  CollectionRule_ordering a c ≠ Gt.
Proof.
  unfold CollectionRule_ordering, PositionField. rewrite !N.compare_le_iff. lia.
Qed.

Lemma collectionrule_set_elem c table r :
  r ∈ collectionrule_set c table ↔ r ∈ table ∧ rule_collection r = c.
Proof.
  unfold collectionrule_set. rewrite order_by_perm, list_elem_of_filter. tauto.
Qed.

(** C6: the rules of a collection are enumerated by ascending position: the
    enumeration holds exactly the collection's rules, and every rule in it
    has a position at most that of every later one. *)
Theorem collectionrule_set_by_position (c : Z) (table : list CollectionRule) :
  collectionrule_set c table ≡ₚ filter (λ r, rule_collection r = c) table ∧
  StronglySorted (λ a b, (rule_position a ≤ rule_position b)%N)
    (collectionrule_set c table) ∧
  (∀ i j r1 r2, i < j →
     collectionrule_set c table !! i = Some r1 →
     collectionrule_set c table !! j = Some r2 →
     (rule_position r1 ≤ rule_position r2)%N).
Proof.
  assert (Hs : StronglySorted (λ a b, (rule_position a ≤ rule_position b)%N)
                 (collectionrule_set c table)).
  { eapply StronglySorted_weaken; [| apply order_by_sorted].
    - intros a b. apply CollectionRule_ordering_spec.
    - apply CollectionRule_ordering_total.
    - apply CollectionRule_ordering_trans. }
  split; [apply order_by_perm | split; [exact Hs |]].
  intros i j r1 r2 Hij H1 H2.
  exact (StronglySorted_lookup_lt _ _ i j r1 r2 Hs Hij H1 H2).
Qed.

(** ** unique_together *)

Lemma violates_unique_together_spec table r :
  violates_unique_together table r = true ↔ unique_key r ∈ unique_key <$> table.
Proof.
  unfold violates_unique_together. rewrite existsb_exists, list_elem_of_fmap.
  split.
  - intros (r' & Hin & Heq). apply bool_decide_eq_true in Heq.
    exists r'. split; [done | by apply list_elem_of_In].
  - intros (r' & Heq & Hin). exists r'. split; [by apply list_elem_of_In |].
    by apply bool_decide_eq_true.
Qed.

Lemma rule_table_NoDup table : rule_table table → NoDup (unique_key <$> table).
Proof.
  induction 1 as [| table r table' _ IH Hcreate | table i _ IH].
  - constructor.
  - unfold CollectionRule_create in Hcreate.
    destruct (violates_unique_together table r) eqn:Hv; [discriminate |].
    injection Hcreate as <-. rewrite fmap_app. apply NoDup_app.
    split; [done | split].
    + intros k Hk Hk'. simpl in Hk'. apply list_elem_of_singleton in Hk'. subst k.
      apply violates_unique_together_spec in Hk. congruence.
    + apply NoDup_singleton.
  - unfold CollectionRule_delete. rewrite list_fmap_delete.
    exact (sublist_NoDup _ _ IH (sublist_delete _ _)).
Qed.

(** C4: in every table of rules built by creations and deletions, two
    distinct stored rules differ in (collection, column, condition,
    relation), and creating a rule whose four fields equal those of a stored
    rule is rejected. *)
Theorem unique_together_rules (table : list CollectionRule) :
  rule_table table →
  (∀ i j r1 r2, i ≠ j → table !! i = Some r1 → table !! j = Some r2 →
     (rule_collection r1, column r1, condition r1, relation r1) ≠
     (rule_collection r2, column r2, condition r2, relation r2)) ∧
  (∀ r r', r' ∈ table →
     rule_collection r = rule_collection r' → column r = column r' →
     condition r = condition r' → relation r = relation r' →
     CollectionRule_create table r = None).
Proof.
  intros Ht. split.
  - intros i j r1 r2 Hij H1 H2 Heq. apply Hij.
    apply (NoDup_lookup (unique_key <$> table) i j (unique_key r1)).
    + by apply rule_table_NoDup.
    + by rewrite list_lookup_fmap, H1.
    + rewrite list_lookup_fmap, H2. unfold unique_key. simpl. by rewrite Heq.
  - intros r r' Hin Hc Hcol Hcond Hrel. unfold CollectionRule_create.
    assert (Hv : violates_unique_together table r = true).
    { apply violates_unique_together_spec. apply list_elem_of_fmap.
      exists r'. split; [| done]. unfold unique_key. congruence. }
    by rewrite Hv.
Qed.

(** ** Rule set evaluation *)

Section RuleSetEvaluatorFacts.
Variable evaluate : Product → CollectionRule → bool.

Lemma all_rules_spec P rules :
  all_rules evaluate P rules = true ↔ ∀ r, r ∈ rules → evaluate P r = true.
Proof using Type.
  induction rules as [| r rules IH]; simpl.
  - split; [| done]. intros _ r Hr. by apply not_elem_of_nil in Hr.
  - destruct (evaluate P r) eqn:Hr.
    + rewrite IH. split.
      * intros H r' Hr'. apply elem_of_cons in Hr' as [-> | Hr']; auto.
      * intros H r' Hr'. apply H. by apply elem_of_cons; right.
    + split; [done |]. intros H.
      rewrite <- Hr. apply H. by apply elem_of_cons; left.
Qed.

Lemma any_rule_spec P rules :
  any_rule evaluate P rules = true ↔ ∃ r, r ∈ rules ∧ evaluate P r = true.
Proof using Type.
  induction rules as [| r rules IH]; simpl.
  - split; [done |]. intros (r & Hr & _). by apply not_elem_of_nil in Hr.
  - destruct (evaluate P r) eqn:Hr.
    + split; [| done]. intros _. exists r. split; [by apply elem_of_cons; left | done].
    + rewrite IH. split.
      * intros (r' & Hr' & He). exists r'. split; [by apply elem_of_cons; right | done].
      * intros (r' & Hr' & He). apply elem_of_cons in Hr' as [-> | Hr'];
          [congruence | by exists r'].
Qed.

Lemma matches_conjunctive P C rules :
  disjunctive C = false →
  matches evaluate P C rules = true ↔
  rules ≠ [] ∧ ∀ r, r ∈ rules → evaluate P r = true.
Proof using Type.
  intros Hd. unfold matches. rewrite Hd. destruct rules as [| r0 rules].
  - split; [done | by intros [H _]].
  - rewrite all_rules_spec. split; [by intros H | by intros [_ H]].
Qed.
End RuleSetEvaluatorFacts.

(** C1: for a collection whose [disjunctive] flag is false, a product is a
    member exactly when the collection has at least one rule and every rule
    of the collection evaluates to true for the product; a collection
    without rules has no member. *)
Theorem conjunctive_membership (evaluate : Product → CollectionRule → bool)
    (P : Product) (C : CustomCollection) (table : list CollectionRule) :
  disjunctive C = false →
  (is_member evaluate P C table = true ↔
     (∃ r, r ∈ table ∧ rule_collection r = collection_pk C) ∧
     (∀ r, r ∈ table → rule_collection r = collection_pk C →
           evaluate P r = true)) ∧
  ((∀ r, r ∈ table → rule_collection r ≠ collection_pk C) →
     is_member evaluate P C table = false).
Proof.
  intros Hd. unfold is_member.
  assert (Hne : collectionrule_set (collection_pk C) table ≠ [] ↔
                ∃ r, r ∈ table ∧ rule_collection r = collection_pk C).
  { split.
    - destruct (collectionrule_set (collection_pk C) table) as [| r l] eqn:E;
        [done |]. intros _. exists r. apply collectionrule_set_elem.
      rewrite E. by apply elem_of_cons; left.
    - intros (r & Hr) E. apply collectionrule_set_elem in Hr.
      rewrite E in Hr. by apply not_elem_of_nil in Hr. }
  split.
  - rewrite (matches_conjunctive evaluate P C _ Hd), Hne.
    split; intros [H1 H2]; (split; [done |]).
    + intros r Hr Hc. apply H2. by apply collectionrule_set_elem.
    + intros r Hr. apply collectionrule_set_elem in Hr as [Hr Hc]. by apply H2.
  - intros Hnone.
    destruct (matches evaluate P C (collectionrule_set (collection_pk C) table))
      eqn:E; [| done].
    apply (matches_conjunctive evaluate P C _ Hd) in E as [E _].
    apply Hne in E as (r & Hr & Hc). by destruct (Hnone r Hr).
Qed.

(** ** Rendering of positions *)

Local Open Scope N_scope.

Lemma append_nil (t : string) : ("" ++ t = t)%string.
Proof. reflexivity. Qed.

Lemma append_cons c (s t : string) : (String c s ++ t = String c (s ++ t))%string.
Proof. reflexivity. Qed.

Lemma string_app_assoc (a b c : string) : ((a ++ b) ++ c = a ++ (b ++ c))%string.
Proof.
  induction a as [| x a IH]; [done |]. by rewrite !append_cons, IH.
Qed.

Lemma string_length_app (a b : string) :
  String.length (a ++ b) = (String.length a + String.length b)%nat.
Proof.
  induction a as [| x a IH]; [done |]. rewrite append_cons. simpl. by rewrite IH.
Qed.

Lemma pow10_pos k : 0 < 10 ^ k.
Proof. apply N.neq_0_lt_0, N.pow_nonzero. lia. Qed.

Lemma pow10_succ (w : nat) : 10 ^ N.of_nat (S w) = 10 * 10 ^ N.of_nat w.
Proof. rewrite Nat2N.inj_succ, N.pow_succ_r'. reflexivity. Qed.

Lemma fixed_width_snoc w n :
  fixed_width_decimal (S w) n =
  (fixed_width_decimal w (n / 10) ++ String (digit_char (n mod 10)) "")%string.
Proof.
  induction w as [| w IH].
  - simpl. by rewrite N.div_1_r.
  - change (fixed_width_decimal (S (S w)) n) with
      (String (digit_char ((n / 10 ^ N.of_nat (S w)) mod 10))
              (fixed_width_decimal (S w) n)).
    rewrite IH.
    change (fixed_width_decimal (S w) (n / 10)) with
      (String (digit_char (((n / 10) / 10 ^ N.of_nat w) mod 10))
              (fixed_width_decimal w (n / 10))).
    rewrite append_cons. do 3 f_equal.
    rewrite pow10_succ, N.Div0.div_div. reflexivity.
Qed.

Lemma fixed_width_zero w : fixed_width_decimal w 0 = zeros w.
Proof.
  induction w as [| w IH]; simpl; [done |].
  rewrite IH, N.Div0.div_0_l. reflexivity.
Qed.

Lemma fixed_width_length w n : String.length (fixed_width_decimal w n) = w.
Proof. induction w as [| w IH]; simpl; [done | by rewrite IH]. Qed.

(** Padding the shortest rendering gives the fixed-width one. *)
Lemma decimal_fuel_padded f : ∀ n w,
  n < 10 ^ N.of_nat (S f) → n < 10 ^ N.of_nat (S w) →
  (String.length (decimal_fuel (S f) n) ≤ S w)%nat ∧
  zero_padded (S w) (decimal_fuel (S f) n) = fixed_width_decimal (S w) n.
Proof.
  unfold zero_padded. induction f as [| f IH]; intros n w Hf Hw.
  - change (10 ^ N.of_nat 1) with 10 in Hf.
    simpl decimal_fuel. apply N.ltb_lt in Hf as Hf'. rewrite Hf'. simpl String.length.
    split; [lia |].
    rewrite fixed_width_snoc, N.div_small, N.mod_small, fixed_width_zero by done.
    by replace (S w - 1)%nat with w by lia.
  - change (decimal_fuel (S (S f)) n) with
      (if n <? 10 then String (digit_char n) ""
       else (decimal_fuel (S f) (n / 10) ++ String (digit_char (n mod 10)) "")%string).
    destruct (n <? 10) eqn:Hn.
    + apply N.ltb_lt in Hn. simpl String.length. split; [lia |].
      rewrite fixed_width_snoc, N.div_small, N.mod_small, fixed_width_zero by done.
      by replace (S w - 1)%nat with w by lia.
    + apply N.ltb_ge in Hn.
      destruct w as [| w].
      { change (10 ^ N.of_nat 1) with 10 in Hw. lia. }
      rewrite pow10_succ in Hf, Hw.
      destruct (IH (n / 10) w) as [Hlen Heq].
      { apply N.Div0.div_lt_upper_bound. lia. }
      { apply N.Div0.div_lt_upper_bound. lia. }
      rewrite string_length_app.
      change (String.length (String (digit_char (n mod 10)) "")) with 1%nat.
      split; [lia |].
      rewrite (fixed_width_snoc (S w)), <- Heq, string_app_assoc.
      by replace (S (S w) - (String.length (decimal_fuel (S f) (n / 10)) + 1))%nat
        with (S w - String.length (decimal_fuel (S f) (n / 10)))%nat by lia.
Qed.

Lemma decimal_fuel_enough n : n < 10 ^ N.of_nat (S (N.to_nat (N.size n))).
Proof.
  rewrite pow10_succ, N2Nat.id.
  pose proof (N.size_gt n) as H.
  assert (H2 : 2 ^ N.size n ≤ 10 ^ N.size n) by (apply N.pow_le_mono_l; lia).
  pose proof (pow10_pos (N.size n)). lia.
Qed.

Lemma decimal_padded w n :
  n < 10 ^ N.of_nat (S w) →
  zero_padded (S w) (decimal n) = fixed_width_decimal (S w) n.
Proof.
  intros Hw. unfold decimal.
  apply (decimal_fuel_padded _ n w (decimal_fuel_enough n) Hw).
Qed.

(** On a natural number [format] adds no sign: it pads the digits. *)
Lemma format_int_of_N width (n : N) :
  format_int width (Z.of_N n) = zero_padded width (decimal n).
Proof.
  unfold format_int, zero_padded.
  assert (H : (Z.of_N n <? 0)%Z = false) by (apply Z.ltb_ge; lia).
  rewrite H, Zabs2N.id, append_nil. simpl String.length. by rewrite Nat.sub_0_r.
Qed.

Lemma format_int_fixed_width w (n : N) :
  n < 10 ^ N.of_nat (S w) →
  format_int (S w) (Z.of_N n) = fixed_width_decimal (S w) n.
Proof. intros H. rewrite format_int_of_N. by apply decimal_padded. Qed.

Lemma digit_char_code d : d < 10 → N_of_ascii (digit_char d) = 48 + d.
Proof. intros H. unfold digit_char. apply N_ascii_embedding. lia. Qed.

Lemma compare_cons c1 c2 s1 s2 :
  String.compare (String c1 s1) (String c2 s2) =
  match N_of_ascii c1 ?= N_of_ascii c2 with
  | Eq => String.compare s1 s2
  | o => o
  end.
Proof. reflexivity. Qed.

(** Digit strings of one width compare like the numbers they render. *)
Lemma fixed_width_compare w a b :
  String.compare (fixed_width_decimal w a) (fixed_width_decimal w b) =
  (a mod 10 ^ N.of_nat w ?= b mod 10 ^ N.of_nat w).
Proof.
  induction w as [| w IH].
  - simpl. by rewrite !N.mod_1_r.
  - change (fixed_width_decimal (S w) a) with
      (String (digit_char ((a / 10 ^ N.of_nat w) mod 10)) (fixed_width_decimal w a)).
    change (fixed_width_decimal (S w) b) with
      (String (digit_char ((b / 10 ^ N.of_nat w) mod 10)) (fixed_width_decimal w b)).
    rewrite compare_cons, IH, pow10_succ, (N.mul_comm 10), !N.Div0.mod_mul_r.
    pose proof (pow10_pos (N.of_nat w)) as HP.
    pose proof (N.mod_lt a (10 ^ N.of_nat w)) as Ha.
    pose proof (N.mod_lt b (10 ^ N.of_nat w)) as Hb.
    pose proof (N.mod_lt (a / 10 ^ N.of_nat w) 10) as Hda.
    pose proof (N.mod_lt (b / 10 ^ N.of_nat w) 10) as Hdb.
    set (P := 10 ^ N.of_nat w) in *.
    set (ra := a mod P) in *. set (rb := b mod P) in *.
    set (da := (a / P) mod 10) in *. set (db := (b / P) mod 10) in *.
    rewrite !digit_char_code by lia.
    destruct (N.compare_spec da db) as [Heq | Hlt | Hgt].
    + rewrite Heq, N.compare_refl.
      destruct (N.compare_spec ra rb) as [E | L | G]; symmetry.
      * apply N.compare_eq_iff. lia.
      * apply N.compare_lt_iff. lia.
      * apply N.compare_gt_iff. lia.
    + assert (H1 : (48 + da ?= 48 + db) = Lt) by (apply N.compare_lt_iff; lia).
      rewrite H1. symmetry. apply N.compare_lt_iff. nia.
    + assert (H1 : (48 + da ?= 48 + db) = Gt) by (apply N.compare_gt_iff; lia).
      rewrite H1. symmetry. apply N.compare_gt_iff. nia.
Qed.

Lemma format_int_compare (p1 p2 : N) :
  p1 < 10 ^ 10 → p2 < 10 ^ 10 →
  String.compare (format_int 10 (Z.of_N p1)) (format_int 10 (Z.of_N p2)) =
  (p1 ?= p2).
Proof.
  intros H1 H2.
  rewrite !(format_int_fixed_width 9) by done.
  rewrite fixed_width_compare.
  change (10 ^ N.of_nat 10) with (10 ^ 10).
  by rewrite !N.mod_small.
Qed.

Lemma decimal_value_acc_app acc (s t : string) :
  decimal_value_acc acc (s ++ t) = decimal_value_acc (decimal_value_acc acc s) t.
Proof.
  revert acc. induction s as [| c s IH]; intros acc; [done |].
  rewrite append_cons. simpl. apply IH.
Qed.

Lemma decimal_value_acc_single acc c :
  decimal_value_acc acc (String c "") = 10 * acc + (N_of_ascii c - 48).
Proof. reflexivity. Qed.

Lemma decimal_value_zeros k : decimal_value_acc 0 (zeros k) = 0.
Proof. induction k as [| k IH]; simpl; [done | exact IH]. Qed.

Lemma decimal_value_fuel f : ∀ n,
  n < 10 ^ N.of_nat (S f) → decimal_value (decimal_fuel (S f) n) = n.
Proof.
  unfold decimal_value. induction f as [| f IH]; intros n Hf.
  - change (10 ^ N.of_nat 1) with 10 in Hf. simpl decimal_fuel.
    apply N.ltb_lt in Hf as Hf'. rewrite Hf', decimal_value_acc_single.
    rewrite digit_char_code by done. lia.
  - change (decimal_fuel (S (S f)) n) with
      (if n <? 10 then String (digit_char n) ""
       else (decimal_fuel (S f) (n / 10) ++ String (digit_char (n mod 10)) "")%string).
    destruct (n <? 10) eqn:Hn.
    + apply N.ltb_lt in Hn. rewrite decimal_value_acc_single.
      rewrite digit_char_code by done. lia.
    + apply N.ltb_ge in Hn. rewrite pow10_succ in Hf.
      rewrite decimal_value_acc_app, IH
        by (apply N.Div0.div_lt_upper_bound; lia).
      rewrite decimal_value_acc_single.
      assert (Hm : n mod 10 < 10) by (apply N.mod_lt; lia).
      rewrite digit_char_code by done.
      replace (48 + n mod 10 - 48) with (n mod 10)
        by (generalize (n mod 10); intros; lia).
      symmetry. apply N.div_mod. lia.
Qed.

Lemma decimal_value_padded width n :
  decimal_value (zero_padded width (decimal n)) = n.
Proof.
  unfold decimal_value, zero_padded.
  rewrite decimal_value_acc_app, decimal_value_zeros.
  apply (decimal_value_fuel _ n (decimal_fuel_enough n)).
Qed.

(** C2, amended: saving a membership record sets [sort_value] to the
    decimal digits of [position] padded with zeros on the left to at least
    ten characters (a string that reads back as [position]); below [10^10]
    that is the rendering of exactly ten digits, and for two such records the
    lexicographic comparison of the [sort_value] strings is the numeric
    comparison of the positions. *)
Theorem Collect_save_sort_value :
  (∀ r, sort_value (Collect_save r) = zero_padded 10 (decimal (collect_position r)) ∧
        decimal_value (sort_value (Collect_save r)) = collect_position r) ∧
  (∀ r, collect_position r < 10 ^ 10 →
        sort_value (Collect_save r) = fixed_width_decimal 10 (collect_position r) ∧
        String.length (sort_value (Collect_save r)) = 10%nat) ∧
  (∀ r1 r2, collect_position r1 < 10 ^ 10 → collect_position r2 < 10 ^ 10 →
        String.compare (sort_value (Collect_save r1)) (sort_value (Collect_save r2)) =
        (collect_position r1 ?= collect_position r2)).
Proof.
  split; [| split].
  - intros r. simpl. rewrite format_int_of_N. split; [done |].
    apply decimal_value_padded.
  - intros r Hr. simpl. rewrite (format_int_fixed_width 9) by done.
    split; [done | apply fixed_width_length].
  - intros r1 r2 H1 H2. simpl. by apply format_int_compare.
Qed.

(** A record at position 7, one past ten digits, and what [format] would do
    with a negative integer. *)
Example format_int_7 : format_int 10 7 = "0000000007".
Proof. reflexivity. Qed.

Example format_int_eleven_digits : format_int 10 12345678901 = "12345678901".
Proof. reflexivity. Qed.

Example format_int_negative : format_int 10 (-5) = "-000000005".
Proof. reflexivity. Qed.

Lemma Collect_save_sort_value_witness :
  sort_value (Collect_save collect_b) = "0000000000" ∧
  String.compare (sort_value (Collect_save collect_b))
                 (sort_value (Collect_save collect_a)) = Lt.
Proof.
  destruct Collect_save_sort_value as (_ & Hfixed & Hcompare).
  split.
  - rewrite (proj1 (Hfixed collect_b eq_refl)). reflexivity.
  - rewrite (Hcompare collect_b collect_a eq_refl eq_refl). reflexivity.
Defined.

(** C2, as stated, fails from [10^10] on: the width is a minimum, and the
    [sort_value] of position [10^10] has eleven characters, not the ten of
    the fixed-width rendering. *)
Lemma Collect_save_eleven_characters :
  String.length (sort_value (Collect_save collect_big)) = 11%nat ∧
  sort_value (Collect_save collect_big) ≠
    fixed_width_decimal 10 (collect_position collect_big).
Proof. split; [reflexivity | discriminate]. Qed.

Local Close Scope N_scope.

(** ** Enumeration of membership records *)

Lemma string_compare_refl s : String.compare s s = Eq.
Proof.
  induction s as [| c s IH]; [done |].
  by rewrite compare_cons, N.compare_refl.
Qed.

Lemma string_compare_lt_trans s1 : ∀ s2 s3,
  String.compare s1 s2 = Lt → String.compare s2 s3 = Lt →
  String.compare s1 s3 = Lt.
Proof.
  induction s1 as [| c1 s1 IH]; intros [| c2 s2] [| c3 s3]; try done.
  rewrite !compare_cons.
  destruct (N.compare_spec (N_of_ascii c1) (N_of_ascii c2)) as [E12 | L12 | G12];
    [| | done];
    (destruct (N.compare_spec (N_of_ascii c2) (N_of_ascii c3)) as [E23 | L23 | G23];
     [| | done]); intros H12 H23.
  - rewrite E12, E23, N.compare_refl. by apply (IH s2).
  - rewrite E12. by apply N.compare_lt_iff in L23 as ->.
  - rewrite <- E23. by apply N.compare_lt_iff in L12 as ->.
  - assert (L13 : (N_of_ascii c1 < N_of_ascii c3)%N) by lia.
    by apply N.compare_lt_iff in L13 as ->.
Qed.

(** *** Lawful comparisons *)

Lemma lawful_Z : lawful Z.compare.
Proof.
  repeat split.
  - intros a b. apply Z.compare_antisym.
  - intros a b c Hab. apply Z.compare_eq in Hab. by subst.
  - intros a b c Hab Hbc. change (a < b)%Z in Hab. change (b ≤ c)%Z in Hbc.
    change (a < c)%Z. lia.
Qed.

Lemma lawful_N : lawful N.compare.
Proof.
  repeat split.
  - intros a b. apply N.compare_antisym.
  - intros a b c Hab. apply N.compare_eq in Hab. by subst.
  - intros a b c Hab Hbc. change (a < b)%N in Hab. change (b ≤ c)%N in Hbc.
    change (a < c)%N. lia.
Qed.

Lemma lawful_string : lawful String.compare.
Proof.
  repeat split.
  - intros a b. apply String.compare_antisym.
  - intros a b c Hab. apply String.compare_eq_iff in Hab. by subst.
  - intros a b c Hab Hbc. destruct (String.compare b c) eqn:E; [| | done].
    + apply String.compare_eq_iff in E. by subst.
    + by apply (string_compare_lt_trans a b c).
Qed.

Lemma CompOpp_eq_iff c1 c2 : CompOpp c1 = c2 ↔ c1 = CompOpp c2.
Proof. destruct c1, c2; simpl; split; congruence. Qed.

(** Descending order is lawful when ascending order is. *)
Lemma lawful_flip {A} (cmp : A → A → comparison) :
  lawful cmp → lawful (λ a b, cmp b a).
Proof.
  intros (Hopp & Heq & Hlt). repeat split.
  - intros a b. apply Hopp.
  - intros a b c Hba. simpl.
    rewrite (Hopp b c), (Hopp a c). f_equal. apply Heq.
    rewrite (Hopp b a), Hba. reflexivity.
  - intros a b c Hba Hcb. simpl in *.
    destruct (cmp c b) eqn:E; [| | done].
    + rewrite <- (Heq c b a E). exact Hba.
    + apply (Hlt c b a E). by rewrite Hba.
Qed.

Lemma lawful_on {A B} (f : A → B) (cmp : B → B → comparison) :
  lawful cmp → lawful (λ a b, cmp (f a) (f b)).
Proof.
  intros (Hopp & Heq & Hlt). repeat split.
  - intros a b. apply Hopp.
  - intros a b c. apply Heq.
  - intros a b c. apply Hlt.
Qed.

Lemma lex_Eq c1 c2 : lex c1 c2 = Eq ↔ c1 = Eq ∧ c2 = Eq.
Proof. destruct c1; simpl; split; try tauto; try (intros [H _]; congruence); done. Qed.

Lemma lex_Lt c1 c2 : lex c1 c2 = Lt ↔ c1 = Lt ∨ (c1 = Eq ∧ c2 = Lt).
Proof.
  destruct c1; simpl; split; try tauto; try done.
  - intros [H | [_ H]]; [done | exact H].
  - intros [H | [H _]]; done.
Qed.

(** Comparing field after field is lawful when each field's comparison
    is. *)
Lemma lawful_lex {A} (c1 c2 : A → A → comparison) :
  lawful c1 → lawful c2 → lawful (λ a b, lex (c1 a b) (c2 a b)).
Proof.
  intros (Hopp1 & Heq1 & Hlt1) (Hopp2 & Heq2 & Hlt2). repeat split.
  - intros a b. rewrite (Hopp1 a b), (Hopp2 a b).
    by destruct (c1 a b), (c2 a b).
  - intros a b c Hab. apply lex_Eq in Hab as [H1 H2].
    by rewrite (Heq1 a b c H1), (Heq2 a b c H2).
  - intros a b c Hab Hbc. apply lex_Lt. apply lex_Lt in Hab.
    apply lex_not_Gt in Hbc.
    destruct Hab as [H1 | [H1 H2]].
    + left. apply (Hlt1 a b c H1). destruct Hbc as [-> | [-> _]]; done.
    + rewrite <- (Heq1 a b c H1).
      destruct Hbc as [H3 | [H3 H4]]; [by left | right].
      split; [done |]. by apply (Hlt2 a b c).
Qed.

Lemma lawful_total {A} (cmp : A → A → comparison) :
  lawful cmp → ∀ a b, cmp a b = Gt → cmp b a ≠ Gt.
Proof. intros (Hopp & _ & _) a b H. by rewrite (Hopp a b), H. Qed.

Lemma lawful_trans {A} (cmp : A → A → comparison) :
  lawful cmp → ∀ a b c, cmp a b ≠ Gt → cmp b c ≠ Gt → cmp a c ≠ Gt.
Proof.
  intros (_ & Heq & Hlt) a b c Hab Hbc.
  destruct (cmp a b) eqn:E; [| | done].
  - by rewrite <- (Heq a b c E).
  - by rewrite (Hlt a b c E Hbc).
Qed.

Lemma CustomCollection_ordering_lawful : lawful CustomCollection_ordering.
Proof.
  apply (lawful_flip (λ a b, String.compare (title a) (title b))).
  apply (lawful_on title String.compare), lawful_string.
Qed.

Lemma Collect_ordering_lawful product_rank collection_row :
  lawful (Collect_ordering product_rank collection_row).
Proof.
  apply (lawful_lex
           (λ a b, Z.compare (product_rank (collect_product a))
                             (product_rank (collect_product b)))
           (λ a b, lex (CustomCollection_ordering
                          (collection_row (collect_collection a))
                          (collection_row (collect_collection b)))
                       (N.compare (collect_position a) (collect_position b)))).
  - apply (lawful_on (λ a, product_rank (collect_product a)) Z.compare), lawful_Z.
  - apply (lawful_lex
             (λ a b, CustomCollection_ordering
                       (collection_row (collect_collection a))
                       (collection_row (collect_collection b)))
             (λ a b, N.compare (collect_position a) (collect_position b))).
    + apply (lawful_on (λ a, collection_row (collect_collection a))
               CustomCollection_ordering), CustomCollection_ordering_lawful.
    + apply (lawful_on collect_position N.compare), lawful_N.
Qed.

(** Among the records of one collection the default ordering of [Collect]
    is by the rank of the product, then by position. *)
Lemma Collect_ordering_same_collection product_rank collection_row a b :
  collect_collection a = collect_collection b →
  ordered_by (Collect_ordering product_rank collection_row) a b ↔
  (product_rank (collect_product a) < product_rank (collect_product b))%Z ∨
  (product_rank (collect_product a) = product_rank (collect_product b) ∧
   (collect_position a ≤ collect_position b)%N).
Proof.
  intros Hc. unfold ordered_by, Collect_ordering, CustomCollection_ordering.
  rewrite Hc, string_compare_refl. simpl lex.
  rewrite lex_not_Gt, Z.compare_lt_iff, Z.compare_eq_iff.
  unfold PositionField. by rewrite <- N.compare_le_iff.
Qed.

Lemma collect_set_elem product_rank collection_row c table r :
  r ∈ collect_set product_rank collection_row c table ↔
  r ∈ table ∧ collect_collection r = c.
Proof.
  unfold collect_set. rewrite order_by_perm, list_elem_of_filter. tauto.
Qed.

Lemma collect_set_sorted product_rank collection_row c table :
  StronglySorted (ordered_by (Collect_ordering product_rank collection_row))
    (collect_set product_rank collection_row c table).
Proof.
  apply order_by_sorted.
  - apply lawful_total, Collect_ordering_lawful.
  - apply lawful_trans, Collect_ordering_lawful.
Qed.

Lemma saved_sort_value r :
  saved r → sort_value r = format_int 10 (Z.of_N (collect_position r)).
Proof. unfold saved. intros H. rewrite <- H at 1. reflexivity. Qed.

(** Whatever the ordering of [Product] is, when it ranks the product of
    [r1] strictly before that of [r2], the enumeration lists [r1] first,
    whatever the two positions are. *)
Lemma collect_set_product_first product_rank collection_row c (r1 r2 : Collect) :
  collect_collection r1 = c → collect_collection r2 = c →
  (product_rank (collect_product r1) < product_rank (collect_product r2))%Z →
  collect_set product_rank collection_row c [r2; r1] = [r1; r2].
Proof.
  intros Hc1 Hc2 Hlt.
  pose proof (collect_set_sorted product_rank collection_row c [r2; r1]) as Hs.
  assert (Hp : collect_set product_rank collection_row c [r2; r1] ≡ₚ [r2; r1]).
  { unfold collect_set. rewrite order_by_perm.
    rewrite filter_cons_True by done. rewrite filter_cons_True by done.
    reflexivity. }
  destruct (collect_set product_rank collection_row c [r2; r1])
    as [| x [| y [| z l]]] eqn:E;
    try (apply Permutation_length in Hp; discriminate Hp).
  assert (Hx : x ∈ [r2; r1]) by (rewrite <- Hp; apply list_elem_of_here).
  assert (Hy : y ∈ [r2; r1])
    by (rewrite <- Hp; apply list_elem_of_further, list_elem_of_here).
  assert (H1 : r1 ∈ [x; y])
    by (rewrite Hp; apply list_elem_of_further, list_elem_of_here).
  assert (Hxy : ordered_by (Collect_ordering product_rank collection_row) x y).
  { apply StronglySorted_inv in Hs as [_ Hall].
    by apply Forall_cons in Hall as [Hxy _]. }
  assert (Hn : ¬ ordered_by (Collect_ordering product_rank collection_row) r2 r1).
  { rewrite Collect_ordering_same_collection by congruence. lia. }
  assert (H2 : r2 ∈ [x; y]) by (rewrite Hp; apply list_elem_of_here).
  apply elem_of_cons in Hx as [-> | Hx].
  - apply elem_of_cons in Hy as [-> | Hy].
    + apply elem_of_cons in H1 as [-> | H1]; [done |].
      by apply list_elem_of_singleton in H1 as ->.
    + apply list_elem_of_singleton in Hy as ->. done.
  - apply list_elem_of_singleton in Hx as ->.
    apply elem_of_cons in Hy as [-> | Hy]; [done |].
    apply list_elem_of_singleton in Hy as ->.
    apply elem_of_cons in H2 as [-> | H2]; [done |].
    by apply list_elem_of_singleton in H2 as ->.
Qed.

(** C3, as stated, fails twice.  With products ordered by key, product 1
    sits at position 1 and product 2 at position 0 of collection 1, and the
    enumeration lists product 1 first (by [collect_set_product_first] the
    same happens under every ordering of the products that ranks one of the
    two strictly before the other).  And the order of the positions is not
    the lexicographic order of [sort_value]: position [9999999999] is below
    position [10^10], whose [sort_value] sorts first. *)
Lemma collect_set_not_by_position :
  ¬ Sorted (λ a b, (collect_position a ≤ collect_position b)%N)
      (collect_set by_key sample_row 1 [collect_a; collect_b]) ∧
  (collect_position collect_nines < collect_position collect_big)%N ∧
  String.compare (sort_value collect_big) (sort_value collect_nines) = Lt.
Proof.
  split; [| split; reflexivity].
  assert (E : collect_set by_key sample_row 1 [collect_a; collect_b]
              = [collect_a; collect_b])
    by (vm_compute; reflexivity).
  rewrite E. intros H.
  apply Sorted_inv in H as [_ H]. apply HdRel_inv in H.
  vm_compute in H. by apply H.
Qed.

(** C3, amended: the membership records of a collection are enumerated in
    the default ordering of [Collect], that is by the rank of their products
    in the ordering of [Product] and, among records whose products have one
    rank (those of one product among them), by ascending position; for
    stored records with positions below [10^10] the order of the positions
    is the lexicographic order of the [sort_value] strings. *)
Theorem collect_set_ordering (product_rank : Z → Z)
    (collection_row : Z → CustomCollection) (c : Z) (table : list Collect) :
  Forall saved table →
  collect_set product_rank collection_row c table ≡ₚ
    filter (λ r, collect_collection r = c) table ∧
  (∀ i j r1 r2, i < j →
     collect_set product_rank collection_row c table !! i = Some r1 →
     collect_set product_rank collection_row c table !! j = Some r2 →
     (product_rank (collect_product r1) ≤ product_rank (collect_product r2))%Z ∧
     (product_rank (collect_product r1) = product_rank (collect_product r2) →
      (collect_position r1 ≤ collect_position r2)%N) ∧
     (collect_product r1 = collect_product r2 →
      (collect_position r1 ≤ collect_position r2)%N) ∧
     ((collect_position r1 < 10 ^ 10)%N → (collect_position r2 < 10 ^ 10)%N →
      String.compare (sort_value r1) (sort_value r2) =
      (collect_position r1 ?= collect_position r2)%N)).
Proof.
  intros Hsaved. split; [apply order_by_perm |].
  intros i j r1 r2 Hij H1 H2.
  pose proof (StronglySorted_lookup_lt _ _ i j r1 r2
                (collect_set_sorted product_rank collection_row c table)
                Hij H1 H2) as Hord.
  apply list_elem_of_lookup_2, collect_set_elem in H1 as [Hin1 Hc1].
  apply list_elem_of_lookup_2, collect_set_elem in H2 as [Hin2 Hc2].
  apply Collect_ordering_same_collection in Hord; [| congruence].
  rewrite Forall_forall in Hsaved.
  split; [lia |]. split; [unfold PositionField in *; lia |].
  split; [intros Hp; rewrite Hp in Hord; unfold PositionField in *; lia |].
  intros Hp1 Hp2.
  rewrite (saved_sort_value r1), (saved_sort_value r2) by auto.
  by apply format_int_compare.
Qed.

Lemma collect_set_ordering_witness :
  Forall saved [collect_a; collect_b] ∧
  collect_set by_key sample_row 1 [collect_a; collect_b] ≡ₚ
    filter (λ r, collect_collection r = 1%Z) [collect_a; collect_b].
Proof.
  assert (H : Forall saved [collect_a; collect_b])
    by (repeat constructor; reflexivity).
  split; [exact H |].
  exact (proj1 (collect_set_ordering by_key sample_row 1
                  [collect_a; collect_b] H)).
Defined.

(** ** Adjacent products *)

Lemma enumerate_from_app {A} k (l1 l2 : list A) :
  enumerate_from k (l1 ++ l2) =
  (enumerate_from k l1 ++ enumerate_from (k + Z.of_nat (length l1)) l2)%list.
Proof.
  revert k. induction l1 as [| x l1 IH]; intros k; simpl.
  - by rewrite Z.add_0_r.
  - rewrite IH. do 3 f_equal. lia.
Qed.

Lemma adjecant_loop_app products h res (a b : list (Z * Product)) :
  adjecant_loop products h res (a ++ b)%list =
  res' ← adjecant_loop products h res a; adjecant_loop products h res' b.
Proof.
  revert res. induction a as [| jp a IH]; intros res; simpl; [done |].
  destruct (adjecant_step products h res jp) as [res1 |]; simpl; [apply IH | done].
Qed.

(** Products with another handle leave [res] as it is. *)
Lemma adjecant_loop_skip products h res k (l : list Product) :
  (∀ q, q ∈ l → handle q ≠ h) →
  adjecant_loop products h res (enumerate_from k l) = Some res.
Proof.
  revert k. induction l as [| q l IH]; intros k Hl; simpl; [done |].
  assert (Hq : String.eqb (handle q) h = false).
  { apply String.eqb_neq, Hl. by apply elem_of_cons; left. }
  rewrite Hq. simpl. apply IH. intros q' Hq'. apply Hl. by apply elem_of_cons; right.
Qed.

Lemma getitem_nonneg {A} (l : list A) (i : nat) :
  getitem l (Z.of_nat i) = l !! i.
Proof.
  unfold getitem. assert (H : (0 <=? Z.of_nat i)%Z = true) by (apply Z.leb_le; lia).
  by rewrite H, Nat2Z.id.
Qed.

(** The state of [res] after the loop, when exactly the product at index
    [j] carries the handle. *)
Lemma adjecant_loop_unique (products : list Product) h (j : nat) (p : Product)
    (res : gmap string value) :
  products !! j = Some p → handle p = h →
  (∀ i q, products !! i = Some q → handle q = h → i = j) →
  adjecant_loop products h res (enumerate products) =
  Some (let res1 := match products !! S j with
                    | Some q => <["next" := VProduct q]> res
                    | None => res
                    end in
        match j with
        | O => res1
        | S j' => match products !! j' with
                  | Some q => <["previous" := VProduct q]> res1
                  | None => res1
                  end
        end).
Proof.
  intros Hj Hh Huniq.
  pose proof (take_drop_middle products j p Hj) as Hsplit.
  assert (Hlen : length (take j products) = j).
  { apply length_take_le. apply lookup_lt_Some in Hj. lia. }
  unfold enumerate. rewrite <- Hsplit at 2.
  rewrite enumerate_from_app, adjecant_loop_app, adjecant_loop_skip; cycle 1.
  { intros q Hq Hqh. apply list_elem_of_lookup in Hq as [i Hi].
    pose proof (lookup_lt_Some _ _ _ Hi) as Hlt. rewrite Hlen in Hlt.
    rewrite lookup_take_lt in Hi by done. specialize (Huniq i q Hi Hqh). lia. }
  rewrite Hlen, Z.add_0_l. simpl.
  rewrite Hh, String.eqb_refl.
  (* next *)
  assert (Hnext :
    (if (Z.of_nat j + 1 <? Z.of_nat (length products))%Z
     then q ← getitem products (Z.of_nat j + 1); Some (<["next" := VProduct q]> res)
     else Some res) =
    Some (match products !! S j with
          | Some q => <["next" := VProduct q]> res
          | None => res
          end)).
  { replace (Z.of_nat j + 1)%Z with (Z.of_nat (S j)) by lia. rewrite getitem_nonneg.
    destruct (Z.of_nat (S j) <? Z.of_nat (length products))%Z eqn:E.
    - apply Z.ltb_lt in E.
      destruct (lookup_lt_is_Some_2 products (S j)) as [q Hq]; [lia |].
      by rewrite Hq.
    - apply Z.ltb_ge in E. rewrite lookup_ge_None_2 by lia. done. }
  rewrite Hnext. simpl.
  set (res1 := match products !! S j with
               | Some q => <["next" := VProduct q]> res
               | None => res
               end).
  assert (Hprev :
    (if (Z.of_nat j - 1 >=? 0)%Z
     then q ← getitem products (Z.of_nat j - 1); Some (<["previous" := VProduct q]> res1)
     else Some res1) =
    Some (match j with
          | O => res1
          | S j' => match products !! j' with
                    | Some q => <["previous" := VProduct q]> res1
                    | None => res1
                    end
          end)).
  { destruct j as [| j'].
    - reflexivity.
    - replace (Z.of_nat (S j') - 1)%Z with (Z.of_nat j') by lia.
      rewrite getitem_nonneg.
      assert (E : (Z.of_nat j' >=? 0)%Z = true) by (apply Z.geb_le; lia).
      rewrite E.
      destruct (lookup_lt_is_Some_2 products j') as [q Hq].
      { apply lookup_lt_Some in Hj. lia. }
      by rewrite Hq. }
  rewrite Hprev. simpl.
  apply adjecant_loop_skip.
  intros q Hq Hqh. apply list_elem_of_lookup in Hq as [i Hi].
  rewrite lookup_drop in Hi. specialize (Huniq _ q Hi Hqh). lia.
Qed.

Lemma split_nonempty sep s : split sep s ≠ [].
Proof.
  destruct s as [| c s]; simpl; [done |].
  destruct (Ascii.eqb c sep); [done |]. by destruct (split sep s).
Qed.

(** [path.split('/')[-1]] never raises. *)
Lemma getitem_split_last sep s : is_Some (getitem (split sep s) (-1)).
Proof.
  pose proof (split_nonempty sep s) as Hne. unfold getitem.
  destruct (split sep s) as [| x l]; [done |]. simpl length.
  assert (E : (- Z.of_nat (S (length l)) <=? -1)%Z = true) by (apply Z.leb_le; lia).
  change (0 <=? -1)%Z with false. cbv iota. rewrite E.
  apply lookup_lt_is_Some_2. simpl. lia.
Qed.

(** C10, amended: when the product whose handle is the last segment of the
    request path is the only one with that handle and sits at index [j] of the
    collection's products, [next_product] is [False] if it is the last
    member and the product at index [j + 1] otherwise, and
    [previous_product] is [False] if it is the first member and the product
    at index [j - 1] otherwise. *)
Theorem adjecant_products_neighbours (req : request) (products : list Product)
    (j : nat) (p : Product) :
  products !! j = Some p →
  getitem (split "/" (path req)) (-1) = Some (handle p) →
  (∀ i q, products !! i = Some q → handle q = handle p → i = j) →
  (S j = length products → next_product req products = Some VFalse) ∧
  (j = 0 → previous_product req products = Some VFalse) ∧
  (∀ q, products !! S j = Some q →
        next_product req products = Some (VProduct q)) ∧
  (∀ j' q, j = S j' → products !! j' = Some q →
        previous_product req products = Some (VProduct q)).
Proof.
  intros Hj Hpath Huniq.
  assert (Hres := adjecant_loop_unique products (handle p) j p
                    (<["next" := VFalse]> (<["previous" := VFalse]> ∅))
                    Hj eq_refl Huniq).
  unfold next_product, previous_product, adjecant_products.
  rewrite Hpath. simpl. rewrite Hres. simpl.
  repeat split.
  - intros Hlast. rewrite lookup_ge_None_2 by lia.
    destruct j as [| j']; [done |].
    destruct (products !! j'); by simplify_map_eq.
  - intros ->. destruct (products !! 1); by simplify_map_eq.
  - intros q Hq. rewrite Hq.
    destruct j as [| j']; [by simplify_map_eq |].
    destruct (products !! j'); by simplify_map_eq.
  - intros j' q -> Hq. rewrite Hq. by simplify_map_eq.
Qed.

Lemma adjecant_products_neighbours_witness :
  sample_products !! 1 = Some (product_of 2 "auckland") ∧
  getitem (split "/" (path sample_request)) (-1) = Some "auckland" ∧
  next_product sample_request sample_products =
    Some (VProduct (product_of 3 "taupo")) ∧
  previous_product sample_request sample_products =
    Some (VProduct (product_of 1 "wellington")).
Proof.
  assert (H1 : sample_products !! 1 = Some (product_of 2 "auckland"))
    by reflexivity.
  assert (H2 : getitem (split "/" (path sample_request)) (-1) =
               Some (handle (product_of 2 "auckland"))) by reflexivity.
  assert (H3 : ∀ i q, sample_products !! i = Some q →
                 handle q = handle (product_of 2 "auckland") → i = 1).
  { intros [| [| [| i]]] q Hq Hh; simpl in Hq; [| reflexivity | |];
      try (injection Hq as <-; discriminate Hh). discriminate Hq. }
  pose proof (adjecant_products_neighbours sample_request sample_products 1
                (product_of 2 "auckland") H1 H2 H3) as (_ & _ & Hn & Hp).
  split; [exact H1 | split; [exact H2 | split]].
  - apply Hn. reflexivity.
  - apply (Hp 0). + reflexivity. + reflexivity.
Defined.

(** C10, as stated, fails when two products share the handle: the loop has
    no [break] and keeps the neighbours of every match.  In [twin_products]
    the last member and the first member both carry the handle of the path,
    yet [next_product] and [previous_product] are the product between them,
    not [False]. *)
Lemma adjecant_products_twins_not_False :
  twin_products !! 2 = Some (product_of 3 "auckland") ∧
  S 2 = length twin_products ∧
  twin_products !! 0 = Some (product_of 1 "auckland") ∧
  getitem (split "/" "/products/auckland") (-1) = Some "auckland" ∧
  next_product {| path := "/products/auckland" |} twin_products =
    Some (VProduct (product_of 2 "taupo")) ∧
  previous_product {| path := "/products/auckland" |} twin_products =
    Some (VProduct (product_of 2 "taupo")) ∧
  next_product {| path := "/products/auckland" |} twin_products ≠ Some VFalse ∧
  previous_product {| path := "/products/auckland" |} twin_products ≠ Some VFalse.
Proof. repeat split; try reflexivity; discriminate. Qed.

(** ** Witnesses on the sample data *)

Lemma conjunctive_membership_witness :
  disjunctive sample_collection = false ∧
  is_member vendor_equals (product_of 1 "wellington") sample_collection
    [sample_rule] = true.
Proof.
  split; [reflexivity |].
  apply (conjunctive_membership vendor_equals (product_of 1 "wellington")
           sample_collection [sample_rule] eq_refl).
  split.
  - exists sample_rule. split; [apply list_elem_of_here | reflexivity].
  - intros r Hr _. apply list_elem_of_singleton in Hr. subst r. reflexivity.
Defined.

Lemma unique_together_rules_witness :
  rule_table [sample_rule] ∧
  CollectionRule_create [sample_rule] sample_rule = None.
Proof.
  assert (H : rule_table [sample_rule]).
  { apply (rule_table_create [] sample_rule); [constructor | reflexivity]. }
  split; [exact H |].
  apply (proj2 (unique_together_rules [sample_rule] H) sample_rule sample_rule);
    [apply list_elem_of_here | reflexivity ..].
Defined.

(** * Further properties of the model *)

(** ** all_types and all_vendors *)

Lemma string_le_total : Total string_le.
Proof. intros a b. apply String.leb_total. Qed.

Lemma string_le_trans : Transitive string_le.
Proof.
  intros a b c. unfold string_le, String.leb.
  destruct (String.compare a b) eqn:Hab; [| | done];
    (destruct (String.compare b c) eqn:Hbc; [| | done]); intros _ _.
  - apply String.compare_eq_iff in Hab as ->. by rewrite Hbc.
  - apply String.compare_eq_iff in Hab as ->. by rewrite Hbc.
  - apply String.compare_eq_iff in Hbc as <-. by rewrite Hab.
  - by rewrite (string_compare_lt_trans a b c Hab Hbc).
Qed.

Lemma sorted_elem s x : x ∈ sorted s ↔ x ∈ s.
Proof. unfold sorted. by rewrite merge_sort_Permutation, elem_of_elements. Qed.

Lemma sorted_NoDup s : NoDup (sorted s).
Proof.
  unfold sorted. rewrite merge_sort_Permutation. apply NoDup_elements.
Qed.

Lemma sorted_StronglySorted s : StronglySorted string_le (sorted s).
Proof.
  unfold sorted.
  apply (@StronglySorted_merge_sort _ _ _ string_le_trans string_le_total).
Qed.

(** In a list without duplicates that is sorted by [<=], earlier elements
    are strictly below later ones. *)
Lemma sorted_strict s i j a b :
  i < j → sorted s !! i = Some a → sorted s !! j = Some b →
  String.ltb a b = true.
Proof.
  intros Hij Hi Hj.
  pose proof (StronglySorted_lookup_lt _ _ i j a b (sorted_StronglySorted s)
                Hij Hi Hj) as Hle.
  unfold string_le, String.leb in Hle. unfold String.ltb.
  destruct (String.compare a b) eqn:E; [| done | done].
  apply String.compare_eq_iff in E. subst b.
  pose proof (NoDup_lookup _ i j a (sorted_NoDup s) Hi Hj). lia.
Qed.

(** X1: [all_types] lists exactly the non-empty product types of the products,
    each once, in strictly ascending order. *)
Theorem all_types_spec (products : list Product) :
  (∀ x, x ∈ all_types products ↔
        x ≠ "" ∧ ∃ p, p ∈ products ∧ product_type p = x) ∧
  (∀ i j a b, i < j → all_types products !! i = Some a →
        all_types products !! j = Some b → String.ltb a b = true).
Proof.
  split.
  - intros x. unfold all_types, filter_truthy.
    rewrite sorted_elem, elem_of_filter, elem_of_list_to_set, list_elem_of_fmap.
    split; intros [Hx (p & Hp & Hin)]; (split; [done |]); by exists p.
  - intros i j a b. apply sorted_strict.
Qed.

(** X2: [all_vendors] lists exactly the non-empty vendors of the products, each
    once, in strictly ascending order. *)
Theorem all_vendors_spec (products : list Product) :
  (∀ x, x ∈ all_vendors products ↔
        x ≠ "" ∧ ∃ p, p ∈ products ∧ vendor p = x) ∧
  (∀ i j a b, i < j → all_vendors products !! i = Some a →
        all_vendors products !! j = Some b → String.ltb a b = true).
Proof.
  split.
  - intros x. unfold all_vendors, filter_truthy.
    rewrite sorted_elem, elem_of_filter, elem_of_list_to_set, list_elem_of_fmap.
    split; intros [Hx (p & Hp & Hin)]; (split; [done |]); by exists p.
  - intros i j a b. apply sorted_strict.
Qed.

(** X3: the number of listed types never exceeds the number of products. *)
Theorem all_types_count (products : list Product) :
  (length (all_types products) ≤ all_products_count products)%nat.
Proof.
  unfold all_products_count.
  rewrite <- (length_fmap product_type products).
  apply submseteq_length, NoDup_submseteq; [apply sorted_NoDup |].
  intros x Hx. unfold all_types, filter_truthy in Hx.
  apply sorted_elem, elem_of_filter in Hx as [_ Hx].
  by apply elem_of_list_to_set in Hx.
Qed.

(** ** current_type and current_vendor *)

Lemma substring_full s : substring 0 (String.length s) s = s.
Proof. induction s as [| c s IH]; simpl; [done | by rewrite IH]. Qed.

Lemma substring_skip (pre s : string) m :
  substring (String.length pre) m (pre ++ s) = substring 0 m s.
Proof. induction pre as [| c pre IH]; [done |]. rewrite append_cons. exact IH. Qed.

Lemma substring_split s : ∀ k, (k ≤ String.length s)%nat →
  s = (substring 0 k s ++ substring k (String.length s - k) s)%string.
Proof.
  induction s as [| c s IH]; intros k Hk.
  - simpl in Hk. replace k with 0%nat by lia. reflexivity.
  - destruct k as [| k].
    + rewrite Nat.sub_0_r, substring_full. reflexivity.
    + simpl in Hk. simpl substring. rewrite append_cons.
      f_equal. apply IH. lia.
Qed.

Lemma endswith_app (pre suffix : string) : endswith (pre ++ suffix) suffix = true.
Proof.
  unfold endswith. rewrite string_length_app.
  replace (String.length pre + String.length suffix - String.length suffix)%nat
    with (String.length pre) by lia.
  rewrite substring_skip, substring_full, String.eqb_refl, andb_true_r.
  apply Nat.leb_le. lia.
Qed.

Lemma endswith_inv (s suffix : string) :
  endswith s suffix = true → ∃ pre, s = (pre ++ suffix)%string.
Proof.
  unfold endswith. intros H. apply andb_true_iff in H as [Hlen Heq].
  apply Nat.leb_le in Hlen. apply String.eqb_eq in Heq.
  remember (String.length s - String.length suffix)%nat as k eqn:Hk.
  assert (Hm : String.length suffix = (String.length s - k)%nat) by lia.
  exists (substring 0 k s).
  rewrite <- Heq, Hm. apply substring_split. lia.
Qed.

Lemma append_suffix_inj (p1 : string) : ∀ (p2 t1 t2 : string),
  String.length t1 = String.length t2 →
  (p1 ++ t1 = p2 ++ t2)%string → t1 = t2.
Proof.
  induction p1 as [| c p1 IH]; intros [| c2 p2] t1 t2 Hlen Heq.
  - exact Heq.
  - exfalso. rewrite append_nil in Heq. subst t1.
    rewrite string_length_app in Hlen. simpl in Hlen. lia.
  - exfalso. rewrite append_nil in Heq. subst t2.
    rewrite string_length_app in Hlen. simpl in Hlen. lia.
  - rewrite !append_cons in Heq. injection Heq as _ Heq. by apply (IH p2).
Qed.

(** X4: no path is a types page and a vendors page at once: of [current_type]
    and [current_vendor] at least one is [None]. *)
Theorem current_type_vendor_exclusive (req : request) (GET : gmap string string) :
  current_type req GET = None ∨ current_vendor req GET = None.
Proof.
  unfold current_type, current_vendor.
  destruct (endswith (path req) "/types") eqn:Ht; [| by left].
  destruct (endswith (path req) "/vendors") eqn:Hv; [| by right].
  exfalso.
  apply endswith_inv in Ht as [p1 H1]. apply endswith_inv in Hv as [p2 H2].
  rewrite H1 in H2.
  change "/vendors" with ("/v" ++ "endors")%string in H2.
  rewrite <- string_app_assoc in H2.
  by apply append_suffix_inj in H2.
Qed.

(** X5: on every path that ends in [/types], [current_type] is the [q]
    parameter of the query ([None] when the query has none), whatever comes
    before; likewise [current_vendor] on paths that end in [/vendors]. *)
Theorem current_type_on_types_page (pre : string) (GET : gmap string string) :
  current_type {| path := pre ++ "/types" |} GET = GET !! "q" ∧
  current_vendor {| path := pre ++ "/vendors" |} GET = GET !! "q".
Proof.
  unfold current_type, current_vendor. simpl path.
  by rewrite !endswith_app.
Qed.

(** ** Segments of a path *)

Lemma split_app_sep sep (a b : string) :
  split sep (a ++ String sep b) = (split sep a ++ split sep b)%list.
Proof.
  induction a as [| c a IH].
  - rewrite append_nil. simpl. by rewrite Ascii.eqb_refl.
  - rewrite append_cons. simpl. rewrite IH.
    destruct (Ascii.eqb c sep); [done |].
    pose proof (split_nonempty sep a) as Hne.
    by destruct (split sep a).
Qed.

Lemma split_no_sep sep (s : string) : occurs sep s = false → split sep s = [s].
Proof.
  induction s as [| c s IH]; simpl; [done |].
  intros H. apply orb_false_iff in H as [Hc Hs]. by rewrite Hc, IH.
Qed.

Lemma getitem_last {A} (l : list A) x : getitem (l ++ [x]) (-1) = Some x.
Proof.
  unfold getitem. change (0 <=? -1)%Z with false. cbv iota.
  rewrite length_app. simpl length.
  assert (E : (- Z.of_nat (length l + 1) <=? -1)%Z = true) by (apply Z.leb_le; lia).
  rewrite E.
  replace (Z.to_nat (Z.of_nat (length l + 1) + -1)) with (length l + 0) by lia.
  by rewrite lookup_app_r, Nat.add_0_r, Nat.sub_diag by lia.
Qed.

(** X6: the handle [adjecant_products] reads off a path: whatever precedes the
    last slash, [path.split('/')[-1]] is the text after it. *)
Theorem split_last_segment (pre h : string) :
  occurs "/" h = false →
  getitem (split "/" (pre ++ "/" ++ h)) (-1) = Some h.
Proof.
  intros Hh. change ("/" ++ h)%string with (String "/" h).
  rewrite split_app_sep, (split_no_sep _ h Hh). apply getitem_last.
Qed.

Lemma split_last_segment_witness :
  occurs "/" "auckland" = false ∧
  getitem (split "/" ("/collections/cityscapes/products" ++ "/" ++ "auckland")) (-1)
  = Some "auckland".
Proof.
  split; [reflexivity |].
  apply (split_last_segment "/collections/cityscapes/products" "auckland").
  reflexivity.
Defined.

(** X7: The URL of a collection has three segments: the empty one before the
    leading slash, [collection], and the handle. *)
Theorem get_absolute_url_segments (h : string) :
  occurs "/" h = false →
  split "/" (url h) = [""; "collection"; h].
Proof.
  intros Hh. unfold url, get_absolute_url.
  change ("/collection/" ++ h)%string with ("/collection" ++ String "/" h)%string.
  by rewrite split_app_sep, (split_no_sep _ h Hh).
Qed.

Lemma get_absolute_url_segments_witness :
  occurs "/" "cityscapes" = false ∧
  split "/" (url "cityscapes") = [""; "collection"; "cityscapes"].
Proof.
  split; [reflexivity |].
  apply (get_absolute_url_segments "cityscapes"). reflexivity.
Defined.

(** ** default_sort_by on the permitted values *)

(** X8: among the permitted values of [sort_order], the lookup of
    [default_sort_by] fails for [created-descending] and for no other. *)
Theorem default_sort_by_raises_iff (v : string) :
  valid_choice SORT_CHOICES v = true →
  (default_sort_by v = None ↔ v = "created-descending").
Proof.
  intros H. choice_cases H; subst v; split; intros E;
    first [ reflexivity | discriminate E ].
Qed.

Lemma default_sort_by_raises_iff_witness :
  valid_choice SORT_CHOICES "price-asc" = true ∧
  (default_sort_by "price-asc" = None ↔ "price-asc" = "created-descending").
Proof.
  split; [reflexivity |].
  apply (default_sort_by_raises_iff "price-asc"). reflexivity.
Defined.

(** ** Width of sort_value *)

Local Open Scope N_scope.

Lemma zeros_length k : String.length (zeros k) = k.
Proof. induction k as [| k IH]; simpl; [done | by rewrite IH]. Qed.

(** A number of at least [10^w] has more than [w] digits. *)
Lemma decimal_fuel_length f : ∀ n w,
  n < 10 ^ N.of_nat (S f) → 10 ^ N.of_nat w ≤ n →
  (w < String.length (decimal_fuel (S f) n))%nat.
Proof.
  induction f as [| f IH]; intros n w Hf Hw.
  - change (10 ^ N.of_nat 1) with 10 in Hf.
    simpl decimal_fuel. apply N.ltb_lt in Hf as Hf'. rewrite Hf'.
    destruct w as [| w]; [simpl; lia |].
    rewrite pow10_succ in Hw. pose proof (pow10_pos (N.of_nat w)). lia.
  - change (decimal_fuel (S (S f)) n) with
      (if n <? 10 then String (digit_char n) ""
       else (decimal_fuel (S f) (n / 10) ++ String (digit_char (n mod 10)) "")%string).
    destruct (n <? 10) eqn:Hn.
    + apply N.ltb_lt in Hn. destruct w as [| w]; [simpl; lia |].
      rewrite pow10_succ in Hw. pose proof (pow10_pos (N.of_nat w)). lia.
    + apply N.ltb_ge in Hn. rewrite string_length_app.
      change (String.length (String (digit_char (n mod 10)) "")) with 1%nat.
      destruct w as [| w]; [lia |].
      rewrite pow10_succ in Hf, Hw.
      assert (Hlt : (w < String.length (decimal_fuel (S f) (n / 10)))%nat).
      { apply IH.
        - apply N.Div0.div_lt_upper_bound. lia.
        - apply N.div_le_lower_bound; lia. }
      lia.
Qed.

Lemma format_int_length_ge (p : N) :
  10 ^ 10 ≤ p → (10 < String.length (format_int 10 (Z.of_N p)))%nat.
Proof.
  intros Hp. rewrite format_int_of_N. unfold zero_padded.
  rewrite string_length_app, zeros_length.
  pose proof (decimal_fuel_length _ p 10 (decimal_fuel_enough p) Hp) as Hlen.
  fold (decimal p) in Hlen. lia.
Qed.

(** X9: the stored [sort_value] fits the ten characters of its column exactly
    when the position is below [10^10]; from [10^10] on it is longer. *)
Theorem sort_value_fits_iff (r : Collect) :
  (String.length (sort_value (Collect_save r)) ≤ 10)%nat ↔
  collect_position r < 10 ^ 10.
Proof.
  simpl sort_value. split.
  - intros Hlen. destruct (N.lt_ge_cases (collect_position r) (10 ^ 10)) as [H | H];
      [done |].
    apply format_int_length_ge in H. lia.
  - intros Hp. rewrite (format_int_fixed_width 9) by done.
    by rewrite fixed_width_length.
Qed.

(** X10: [sort_value] determines the position, at every width: two saved records
    with the same [sort_value] have the same position. *)
Theorem sort_value_injective (r1 r2 : Collect) :
  sort_value (Collect_save r1) = sort_value (Collect_save r2) →
  collect_position r1 = collect_position r2.
Proof.
  simpl sort_value. rewrite !format_int_of_N. intros H.
  rewrite <- (decimal_value_padded 10 (collect_position r1)), H.
  apply decimal_value_padded.
Qed.

Lemma sort_value_injective_witness :
  sort_value (Collect_save collect_a) =
    sort_value (Collect_save
      {| collect_collection := 2; featured := true; collect_position := 1;
         collect_product := 5; sort_value := "" |}) ∧
  collect_position collect_a = 1.
Proof.
  split; [reflexivity |].
  apply (sort_value_injective collect_a
           {| collect_collection := 2; featured := true; collect_position := 1;
              collect_product := 5; sort_value := "" |}).
  reflexivity.
Defined.

Local Close Scope N_scope.

(** ** Deleting a rule frees its key *)

Lemma NoDup_middle_not_elem {A} (l : list A) i x :
  NoDup l → l !! i = Some x → x ∉ delete i l.
Proof.
  intros Hnd Hi. rewrite <- (take_drop_middle l i x Hi) in Hnd.
  rewrite delete_take_drop.
  apply NoDup_app in Hnd as (_ & Hdisj & Hnd).
  apply NoDup_cons in Hnd as [Hx _].
  intros Hin. apply elem_of_app in Hin as [Hin | Hin]; [| done].
  apply (Hdisj x Hin). by apply elem_of_cons; left.
Qed.

(** X11: once a stored rule is deleted, a rule with its four key fields can be
    created again. *)
Theorem delete_then_create (table : list CollectionRule) (i : nat)
    (r r' : CollectionRule) :
  rule_table table → table !! i = Some r' → unique_key r = unique_key r' →
  CollectionRule_create (CollectionRule_delete table i) r =
  Some (CollectionRule_delete table i ++ [r])%list.
Proof.
  intros Ht Hi Hkey. unfold CollectionRule_create.
  destruct (violates_unique_together (CollectionRule_delete table i) r) eqn:Hv;
    [| done].
  exfalso. apply violates_unique_together_spec in Hv.
  unfold CollectionRule_delete in Hv. rewrite list_fmap_delete, Hkey in Hv.
  revert Hv. apply NoDup_middle_not_elem; [by apply rule_table_NoDup |].
  by rewrite list_lookup_fmap, Hi.
Qed.

Lemma delete_then_create_witness :
  rule_table [sample_rule] ∧
  CollectionRule_create (CollectionRule_delete [sample_rule] 0) sample_rule =
  Some [sample_rule].
Proof.
  assert (H : rule_table [sample_rule]).
  { apply (rule_table_create [] sample_rule); [constructor | reflexivity]. }
  split; [exact H |].
  apply (delete_then_create [sample_rule] 0 sample_rule sample_rule H);
    reflexivity.
Defined.

(** ** Adjacent products in general *)

(** One iteration at index [i], spelt out. *)
Lemma adjecant_step_at (products : list Product) h (res : gmap string value)
    (i : nat) (p : Product) :
  products !! i = Some p →
  adjecant_step products h res (Z.of_nat i, p) =
  Some (if String.eqb (handle p) h then
          let res1 := match products !! S i with
                      | Some q => <["next" := VProduct q]> res
                      | None => res
                      end in
          match i with
          | O => res1
          | S i' => match products !! i' with
                    | Some q => <["previous" := VProduct q]> res1
                    | None => res1
                    end
          end
        else res).
Proof.
  intros Hi. unfold adjecant_step.
  destruct (String.eqb (handle p) h); [| done].
  replace (Z.of_nat i + 1)%Z with (Z.of_nat (S i)) by lia.
  rewrite getitem_nonneg.
  assert (Hnext :
    (if (Z.of_nat (S i) <? Z.of_nat (length products))%Z
     then q ← products !! S i; Some (<["next" := VProduct q]> res)
     else Some res) =
    Some (match products !! S i with
          | Some q => <["next" := VProduct q]> res
          | None => res
          end)).
  { destruct (Z.of_nat (S i) <? Z.of_nat (length products))%Z eqn:E.
    - apply Z.ltb_lt in E.
      destruct (lookup_lt_is_Some_2 products (S i)) as [q Hq]; [lia |].
      by rewrite Hq.
    - apply Z.ltb_ge in E. by rewrite lookup_ge_None_2 by lia. }
  rewrite Hnext. simpl.
  destruct i as [| i']; [done |].
  replace (Z.of_nat (S i') - 1)%Z with (Z.of_nat i') by lia.
  rewrite getitem_nonneg.
  assert (E : (Z.of_nat i' >=? 0)%Z = true) by (apply Z.geb_le; lia).
  rewrite E.
  destruct (lookup_lt_is_Some_2 products i') as [q Hq].
  { apply lookup_lt_Some in Hi. lia. }
  by rewrite Hq.
Qed.

(** A property of [res] that every iteration carries from index [i] to
    [i + 1] holds at the length of the list when the loop ends, and the loop
    does end with a dictionary. *)
Lemma adjecant_loop_invariant (products : list Product) h
    (I : nat → gmap string value → Prop) :
  (∀ i p res0 res1, products !! i = Some p → I i res0 →
     adjecant_step products h res0 (Z.of_nat i, p) = Some res1 → I (S i) res1) →
  ∀ l k res, drop k products = l → (k ≤ length products)%nat → I k res →
  ∃ res', adjecant_loop products h res (enumerate_from (Z.of_nat k) l) = Some res' ∧
          I (length products) res'.
Proof.
  intros Hstep. induction l as [| p l IH]; intros k res Hdrop Hk HI.
  - exists res. split; [done |].
    assert (Hlen : length (drop k products) = 0) by (by rewrite Hdrop).
    rewrite length_drop in Hlen. by replace (length products) with k by lia.
  - assert (Hp : products !! k = Some p).
    { rewrite <- (Nat.add_0_r k), <- lookup_drop, Hdrop. done. }
    pose proof (adjecant_step_at products h res k p Hp) as Hat.
    change (adjecant_loop products h res (enumerate_from (Z.of_nat k) (p :: l)))
      with (res' ← adjecant_step products h res (Z.of_nat k, p);
            adjecant_loop products h res' (enumerate_from (Z.of_nat k + 1) l)).
    rewrite Hat. simpl.
    replace (Z.of_nat k + 1)%Z with (Z.of_nat (S k)) by lia.
    apply IH.
    + rewrite (drop_S _ _ _ Hp) in Hdrop. by injection Hdrop.
    + apply lookup_lt_Some in Hp. lia.
    + by apply (Hstep k p res _ Hp HI).
Qed.

Lemma adjecant_step_next (products : list Product) h res0 res1 i p :
  products !! i = Some p →
  adjecant_step products h res0 (Z.of_nat i, p) = Some res1 →
  res1 !! "next" =
  if String.eqb (handle p) h then
    match products !! S i with
    | Some q => Some (VProduct q)
    | None => res0 !! "next"
    end
  else res0 !! "next".
Proof.
  intros Hi Hstep. rewrite (adjecant_step_at _ _ _ _ _ Hi) in Hstep.
  injection Hstep as <-.
  destruct (String.eqb (handle p) h); [| done]. simpl.
  destruct i as [| i'].
  - destruct (products !! 1); by simplify_map_eq.
  - destruct (products !! i'), (products !! S (S i')); by simplify_map_eq.
Qed.

Lemma adjecant_step_previous (products : list Product) h res0 res1 i p :
  products !! i = Some p →
  adjecant_step products h res0 (Z.of_nat i, p) = Some res1 →
  res1 !! "previous" =
  if String.eqb (handle p) h then
    match i with
    | O => res0 !! "previous"
    | S i' => match products !! i' with
              | Some q => Some (VProduct q)
              | None => res0 !! "previous"
              end
    end
  else res0 !! "previous".
Proof.
  intros Hi Hstep. rewrite (adjecant_step_at _ _ _ _ _ Hi) in Hstep.
  injection Hstep as <-.
  destruct (String.eqb (handle p) h); [| done]. simpl.
  destruct i as [| i'].
  - destruct (products !! 1); by simplify_map_eq.
  - destruct (products !! i'), (products !! S (S i')); by simplify_map_eq.
Qed.

Lemma next_upto_step (products : list Product) h i p res0 res1 :
  products !! i = Some p →
  next_upto products h i (res0 !! "next") →
  adjecant_step products h res0 (Z.of_nat i, p) = Some res1 →
  next_upto products h (S i) (res1 !! "next").
Proof.
  intros Hi Hinv Hstep.
  rewrite (adjecant_step_next _ _ _ _ _ _ Hi Hstep).
  pose proof (lookup_lt_Some _ _ _ Hi) as Hlt.
  destruct (String.eqb (handle p) h) eqn:Hh.
  - apply String.eqb_eq in Hh.
    destruct (products !! S i) as [q |] eqn:Hq.
    + exists i, p. repeat split; try done; [lia |]. intros; lia.
    + apply lookup_ge_None_1 in Hq.
      destruct (res0 !! "next") as [[| | q] |]; simpl in *; try done.
      * intros j p' Hj Hp' Hh'.
        destruct (decide (j = i)) as [-> | Hne]; [lia |].
        apply (Hinv j p'); [lia | done | done].
      * destruct Hinv as (j & p0 & Hj & Hp0 & Hh0 & Hq0 & Hrest).
        exists j, p0. repeat split; try done; [lia |].
        intros i' p' Hji Hi' Hp' Hh'.
        destruct (decide (i' = i)) as [-> | Hne]; [lia |].
        apply (Hrest i' p'); [done | lia | done | done].
  - apply String.eqb_neq in Hh.
    destruct (res0 !! "next") as [[| | q] |]; simpl in *; try done.
    + intros j p' Hj Hp' Hh'.
      destruct (decide (j = i)) as [-> | Hne]; [congruence |].
      apply (Hinv j p'); [lia | done | done].
    + destruct Hinv as (j & p0 & Hj & Hp0 & Hh0 & Hq0 & Hrest).
      exists j, p0. repeat split; try done; [lia |].
      intros i' p' Hji Hi' Hp' Hh'.
      destruct (decide (i' = i)) as [-> | Hne]; [congruence |].
      apply (Hrest i' p'); [done | lia | done | done].
Qed.

Lemma previous_upto_step (products : list Product) h i p res0 res1 :
  products !! i = Some p →
  previous_upto products h i (res0 !! "previous") →
  adjecant_step products h res0 (Z.of_nat i, p) = Some res1 →
  previous_upto products h (S i) (res1 !! "previous").
Proof.
  intros Hi Hinv Hstep.
  rewrite (adjecant_step_previous _ _ _ _ _ _ Hi Hstep).
  pose proof (lookup_lt_Some _ _ _ Hi) as Hlt.
  assert (Hkeep : (i = 0 ∨ handle p ≠ h) →
                  previous_upto products h (S i) (res0 !! "previous")).
  { intros Hcase.
    destruct (res0 !! "previous") as [[| | q] |]; simpl in *; try done.
    - intros j p' Hj Hp' Hh'.
      destruct (decide (j = i)) as [-> | Hne];
        [destruct Hcase; [done | congruence] |].
      apply (Hinv j p'); [lia | done | done].
    - destruct Hinv as (j & p0 & Hj & Hp0 & Hh0 & Hq0 & Hrest).
      exists j, p0. repeat split; try done; [lia |].
      intros i' p' Hji Hi' Hp' Hh'.
      destruct (decide (i' = i)) as [-> | Hne];
        [destruct Hcase; [lia | congruence] |].
      apply (Hrest i' p'); [done | lia | done | done]. }
  destruct (String.eqb (handle p) h) eqn:Hh.
  - apply String.eqb_eq in Hh.
    destruct i as [| i']; [apply Hkeep; by left |].
    destruct (lookup_lt_is_Some_2 products i') as [q Hq]; [lia |].
    rewrite Hq. exists i', p. repeat split; try done; [lia |]. intros; lia.
  - apply String.eqb_neq in Hh. apply Hkeep. by right.
Qed.

(** The loop of [adjecant_products] always ends with a dictionary whose two
    entries are as [next_upto] and [previous_upto] say at the end of the
    list. *)
Lemma adjecant_loop_neighbours (products : list Product) h :
  ∃ res,
    adjecant_loop products h (<["next" := VFalse]> (<["previous" := VFalse]> ∅))
      (enumerate products) = Some res ∧
    next_upto products h (length products) (res !! "next") ∧
    previous_upto products h (length products) (res !! "previous").
Proof.
  apply (adjecant_loop_invariant products h
           (λ k res, next_upto products h k (res !! "next") ∧
                     previous_upto products h k (res !! "previous"))
           ltac:(intros i p res0 res1 Hi [Hn Hp] Hstep; split;
                 [by apply (next_upto_step _ _ i p res0)
                 | by apply (previous_upto_step _ _ i p res0)])
           products 0).
  - apply drop_0.
  - lia.
  - split; simplify_map_eq; intros j p Hj; lia.
Qed.

(** X12: [next_product] never raises and never is [None]: it is [False] when no
    product with the handle of the path has a successor, and otherwise the
    successor of the last such product that has one. *)
Theorem next_product_spec (req : request) (products : list Product) :
  ∃ h v,
    getitem (split "/" (path req)) (-1) = Some h ∧
    next_product req products = Some v ∧
    match v with
    | VFalse =>
        ∀ j p, products !! j = Some p → handle p = h → S j = length products
    | VProduct q =>
        ∃ j p, products !! j = Some p ∧ handle p = h ∧
               products !! S j = Some q ∧
               ∀ i p', j < i → products !! i = Some p' → handle p' = h →
                       S i = length products
    | VNone => False
    end.
Proof.
  destruct (getitem_split_last "/" (path req)) as [h Hh].
  destruct (adjecant_loop_neighbours products h) as (res & Hres & Hnext & _).
  unfold next_product, adjecant_products. rewrite Hh. simpl. rewrite Hres. simpl.
  destruct (res !! "next") as [v |]; [| done].
  exists h, v. split; [done | split; [done |]].
  destruct v as [| | q]; simpl in Hnext; [| done |].
  - intros j p Hj. apply Hnext; [by apply lookup_lt_Some in Hj | done].
  - destruct Hnext as (j & p & Hj & Hp & Hhp & Hq & Hrest).
    exists j, p. repeat split; try done.
    intros i p' Hji Hi. apply Hrest; [done | by apply lookup_lt_Some in Hi | done].
Qed.

(** X13: [previous_product] never raises and never is [None]: it is [False] when
    the handle of the path occurs at index 0 only (or not at all), and
    otherwise the predecessor of the last product with that handle. *)
Theorem previous_product_spec (req : request) (products : list Product) :
  ∃ h v,
    getitem (split "/" (path req)) (-1) = Some h ∧
    previous_product req products = Some v ∧
    match v with
    | VFalse => ∀ j p, products !! j = Some p → handle p = h → j = 0
    | VProduct q =>
        ∃ j p, products !! S j = Some p ∧ handle p = h ∧
               products !! j = Some q ∧
               ∀ i p', S j < i → products !! i = Some p' → handle p' ≠ h
    | VNone => False
    end.
Proof.
  destruct (getitem_split_last "/" (path req)) as [h Hh].
  destruct (adjecant_loop_neighbours products h) as (res & Hres & _ & Hprev).
  unfold previous_product, adjecant_products. rewrite Hh. simpl. rewrite Hres. simpl.
  destruct (res !! "previous") as [v |]; [| done].
  exists h, v. split; [done | split; [done |]].
  destruct v as [| | q]; simpl in Hprev; [| done |].
  - intros j p Hj. apply Hprev; [by apply lookup_lt_Some in Hj | done].
  - destruct Hprev as (j & p & Hj & Hp & Hhp & Hq & Hrest).
    exists j, p. repeat split; try done.
    intros i p' Hji Hi.
    apply (Hrest i p'); [done | by apply lookup_lt_Some in Hi | done].
Qed.

(** X14: when no product of the collection has the handle of the path, both
    neighbours are [False]. *)
Theorem adjecant_products_no_match (req : request) (products : list Product)
    (h : string) :
  getitem (split "/" (path req)) (-1) = Some h →
  (∀ p, p ∈ products → handle p ≠ h) →
  next_product req products = Some VFalse ∧
  previous_product req products = Some VFalse.
Proof.
  intros Hh Hnone.
  unfold next_product, previous_product, adjecant_products, enumerate.
  rewrite Hh. simpl. rewrite (adjecant_loop_skip products h _ 0 products Hnone).
  split; by simplify_map_eq.
Qed.

Lemma adjecant_products_no_match_witness :
  getitem (split "/" "/products/rotorua") (-1) = Some "rotorua" ∧
  next_product {| path := "/products/rotorua" |} sample_products = Some VFalse ∧
  previous_product {| path := "/products/rotorua" |} sample_products = Some VFalse.
Proof.
  split; [reflexivity |].
  apply (adjecant_products_no_match {| path := "/products/rotorua" |}
           sample_products "rotorua"); [reflexivity |].
  intros p Hp Hh. unfold sample_products in Hp.
  repeat (apply elem_of_cons in Hp as [-> | Hp]; [discriminate Hh |]).
  by apply not_elem_of_nil in Hp.
Defined.

(** ** Beyond ten digits *)

Local Open Scope N_scope.

Lemma zero_padded_long width (s : string) :
  (width ≤ String.length s)%nat → zero_padded width s = s.
Proof.
  intros H. unfold zero_padded.
  by replace (width - String.length s)%nat with 0%nat by lia.
Qed.

(** An eleven-digit position is rendered by its eleven digits. *)
Lemma format_int_eleven (p : N) :
  10 ^ 10 ≤ p → p < 10 ^ 11 →
  format_int 10 (Z.of_N p) = fixed_width_decimal 11 p.
Proof.
  intros Hlo Hhi. rewrite format_int_of_N.
  pose proof (decimal_fuel_length _ p 10 (decimal_fuel_enough p) Hlo) as Hge.
  fold (decimal p) in Hge.
  rewrite <- (decimal_padded 10 p Hhi).
  rewrite !zero_padded_long by lia. reflexivity.
Qed.

(** X15: from [10^10] on the order of [sort_value] no longer follows the
    positions: a position with leading digit 1 and eleven digits sorts
    before every ten-digit position of at least [2 * 10^9]. *)
Theorem sort_value_order_breaks (r1 r2 : Collect) :
  2 * 10 ^ 9 ≤ collect_position r1 → collect_position r1 < 10 ^ 10 →
  10 ^ 10 ≤ collect_position r2 → collect_position r2 < 2 * 10 ^ 10 →
  collect_position r1 < collect_position r2 ∧
  String.compare (sort_value (Collect_save r2)) (sort_value (Collect_save r1)) = Lt.
Proof.
  intros H1lo H1hi H2lo H2hi. split; [lia |].
  simpl sort_value.
  rewrite (format_int_eleven (collect_position r2)) by (try done; lia).
  rewrite (format_int_fixed_width 9) by done.
  set (p1 := collect_position r1) in *. set (p2 := collect_position r2) in *.
  change (fixed_width_decimal 11 p2) with
    (String (digit_char ((p2 / 10 ^ N.of_nat 10) mod 10)) (fixed_width_decimal 10 p2)).
  change (fixed_width_decimal 10 p1) with
    (String (digit_char ((p1 / 10 ^ N.of_nat 9) mod 10)) (fixed_width_decimal 9 p1)).
  change (10 ^ N.of_nat 10) with (10 ^ 10). change (10 ^ N.of_nat 9) with (10 ^ 9).
  assert (Hd2 : p2 / 10 ^ 10 = 1).
  { apply N.le_antisymm.
    - apply N.lt_succ_r. apply N.Div0.div_lt_upper_bound. lia.
    - apply N.div_le_lower_bound; lia. }
  assert (Hd1lo : 2 ≤ p1 / 10 ^ 9) by (apply N.div_le_lower_bound; lia).
  assert (Hd1hi : p1 / 10 ^ 9 < 10) by (apply N.Div0.div_lt_upper_bound; lia).
  rewrite Hd2, (N.mod_small (p1 / 10 ^ 9)) by done.
  change (1 mod 10) with 1.
  rewrite compare_cons, !digit_char_code by lia.
  assert (E : (48 + 1 ?= 48 + p1 / 10 ^ 9) = Lt).
  { apply N.compare_lt_iff. generalize dependent (p1 / 10 ^ 9). intros; lia. }
  by rewrite E.
Qed.

Lemma sort_value_order_breaks_witness :
  String.compare
    (sort_value (Collect_save
       {| collect_collection := 1; featured := false;
          collect_position := 10000000000; collect_product := 1;
          sort_value := "" |}))
    (sort_value (Collect_save
       {| collect_collection := 1; featured := false;
          collect_position := 9999999999; collect_product := 2;
          sort_value := "" |})) = Lt.
Proof.
  apply (sort_value_order_breaks
           {| collect_collection := 1; featured := false;
              collect_position := 9999999999; collect_product := 2;
              sort_value := "" |}
           {| collect_collection := 1; featured := false;
              collect_position := 10000000000; collect_product := 1;
              sort_value := "" |});
    simpl collect_position; lia.
Defined.

Local Close Scope N_scope.
